(** * Metadata-extraction pipeline of the LinkedIn post generator

    A shallow embedding of [src/preprocess.py]: the text sanitizer
    ([clean_unicode]), the response parser ([extract_json_from_text]), the
    fallback metadata generator ([get_fallback_metadata]), the single-shot
    extractor ([extract_metadata]), the retry controller
    ([extract_metadata_with_retry]) and the batch processor ([process_posts]).

    Python strings are sequences of Unicode code points, and the sanitizer is
    about the surrogate range, so a string is a list of code points here. *)

From Stdlib Require Import String Ascii DecimalString.
From Stdlib Require Import List NArith ZArith Lia Bool Arith.
Import ListNotations.

Set Implicit Arguments.
Set Warnings "-register-all".

(* ================================================================== *)
(** ** Python strings *)

Module Py.

Definition char := N.
Definition str := list char.

(** A source literal, as the code points of its (ASCII) characters. *)
Definition lit (x : string) : str := map N_of_ascii (list_ascii_of_string x).

Fixpoint str_eqb (a b : str) : bool :=
  match a, b with
  | [], [] => true
  | c :: a', d :: b' => (c =? d)%N && str_eqb a' b'
  | _, _ => false
  end.

(** [w in s] for strings: [w] occurs in [s] as a contiguous substring. *)
Fixpoint startswith (s w : str) {struct w} : bool :=
  match w, s with
  | [], _ => true
  | _ :: _, [] => false
  | c :: w', d :: s' => (c =? d)%N && startswith s' w'
  end.

Fixpoint contains (s w : str) : bool :=
  startswith s w ||
  match s with
  | [] => false
  | _ :: s' => contains s' w
  end.

(** [s.split(sep)] for a one-character separator. *)
Fixpoint split (sep : char) (s : str) : list str :=
  match s with
  | [] => [[]]
  | c :: s' =>
      if (c =? sep)%N then [] :: split sep s'
      else match split sep s' with
           | h :: t => (c :: h) :: t
           | [] => [[c]]
           end
  end.

(** [str.isspace] of one code point: the characters [\s] matches in a
    [str] pattern and [str.strip()] removes. *)
Definition isspace (c : char) : bool :=
  ((9 <=? c) && (c <=? 13) || (28 <=? c) && (c <=? 32)
   || (c =? 133) || (c =? 160) || (c =? 5760)
   || (8192 <=? c) && (c <=? 8202)
   || (c =? 8232) || (c =? 8233) || (c =? 8239) || (c =? 8287)
   || (c =? 12288))%N.

Fixpoint lstrip (s : str) : str :=
  match s with
  | c :: s' => if isspace c then lstrip s' else s
  | [] => []
  end.

Definition rstrip (s : str) : str := rev (lstrip (rev s)).

Definition strip (s : str) : str := rstrip (lstrip s).

(** [s.find(c)] and [s.rfind(c)] for a one-character needle; [None] is
    Python's [-1]. *)
Fixpoint find (c : char) (s : str) : option nat :=
  match s with
  | [] => None
  | d :: s' => if (d =? c)%N then Some 0
               else match find c s' with
                    | Some i => Some (S i)
                    | None => None
                    end
  end.

Fixpoint rfind (c : char) (s : str) : option nat :=
  match s with
  | [] => None
  | d :: s' => match rfind c s' with
               | Some i => Some (S i)
               | None => if (d =? c)%N then Some 0 else None
               end
  end.

(** [s[i:j]] for [0 <= i], [0 <= j]. *)
Definition slice (s : str) (i j : nat) : str := firstn (j - i) (skipn i s).

Definition is_ascii (c : char) : bool := (c <? 128)%N.

Definition ascii_lower (c : char) : char :=
  if ((65 <=? c) && (c <=? 90))%N then (c + 32)%N else c.

(** Decimal text of a natural number, as [str(n)] prints it. *)
Definition of_nat (n : nat) : str := lit (NilEmpty.string_of_uint (Nat.to_uint n)).

End Py.

Import Py.

(* ================================================================== *)
(** ** JSON values and Python dicts *)

(** What [json.loads] yields.  A float keeps the text of its literal: no
    property of the program looks inside one. *)
Inductive json :=
| JNull
| JBool (b : bool)
| JInt (z : Z)
| JFloat (literal : str)
| JStr (s : str)
| JArr (items : list json)
| JObj (fields : list (str * json)).

(** A [dict] with string keys: insertion-ordered, keys unique.  Setting an
    existing key keeps its position and replaces the value. *)
Definition dict := list (str * json).

Fixpoint dict_get (d : dict) (k : str) : option json :=
  match d with
  | [] => None
  | (k', v) :: d' => if str_eqb k' k then Some v else dict_get d' k
  end.

Fixpoint dict_set (d : dict) (k : str) (v : json) : dict :=
  match d with
  | [] => [(k, v)]
  | (k', v') :: d' =>
      if str_eqb k' k then (k', v) :: d' else (k', v') :: dict_set d' k v
  end.

(** [{**a, **b}] *)
Definition dict_merge (a b : dict) : dict :=
  fold_left (fun d kv => dict_set d (fst kv) (snd kv)) b a.

Definition dict_keys (d : dict) : list str := map fst d.

(* ================================================================== *)
(** ** Exceptions *)

Inductive exn_class :=
| UnicodeEncodeError
| ValueError
| JSONDecodeError                 (* a subclass of ValueError *)
| RecursionError
| KeyError
| TypeError
| AttributeError
| OtherError.                     (* whatever else the completion call raises *)

(** An exception object: its class and [str(e)]. *)
Record exn := Exn { exn_kind : exn_class; exn_str : str }.

Inductive result (A : Type) :=
| Ok (a : A)
| Raise (e : exn).

Arguments Ok {A} a.
Arguments Raise {A} e.

(* ================================================================== *)
(** ** A reference [json.loads] *)

(** The decoder of CPython's [json] package (scanner and decoder of the
    3.8 to 3.12 line), for a [str] argument and default options.  Two limits
    of the interpreter are not modelled: the recursion limit on deeply
    nested documents, and the limit on the digits of an [int] literal (4300
    by default from 3.11 on, a [ValueError] beyond it), so an integer of any
    length decodes here.  The properties below are stated for every
    [Runtime]; this decoder serves concrete runs only. *)
Module JsonDecoder.

Inductive error :=
| DecodeError (msg : string) (pos : nat)
| DepthError.

Definition res (A : Type) : Type := (A + error)%type.

Definition ws (c : char) : bool :=
  ((c =? 32) || (c =? 9) || (c =? 10) || (c =? 13))%N.

Fixpoint skip_ws (s : str) (i : nat) : str * nat :=
  match s with
  | c :: s' => if ws c then skip_ws s' (S i) else (s, i)
  | [] => ([], i)
  end.

Definition digit (c : char) : bool := ((48 <=? c) && (c <=? 57))%N.

Fixpoint take_digits (s : str) : str * str :=
  match s with
  | c :: s' =>
      if digit c then let (ds, r) := take_digits s' in (c :: ds, r)
      else ([], s)
  | [] => ([], [])
  end.

Definition digits_value (ds : str) : Z :=
  fold_left (fun acc c => (10 * acc + Z.of_N (c - 48))%Z) ds 0%Z.

(** [NUMBER_RE.match]: an optional minus, then a zero or a digit string
    without leading zero; optionally a point and digits; optionally an
    exponent.  The result is the value, the rest of the input and the number
    of characters consumed. *)
Definition scan_number (s : str) : option (json * str * nat) :=
  let (sign, s1) :=
    match s with
    | c :: s' => if (c =? 45)%N then ([c], s') else ([], s)
    | [] => ([], s)
    end in
  let int_part :=
    match s1 with
    | c :: s2 =>
        if (c =? 48)%N then Some ([c], s2)
        else if digit c then let (ds, r) := take_digits s2 in Some (c :: ds, r)
        else None
    | [] => None
    end in
  match int_part with
  | None => None
  | Some (ip, r0) =>
      let (frac, r1) :=
        match r0 with
        | c :: r =>
            if (c =? 46)%N then
              match take_digits r with
              | ([], _) => ([], r0)
              | (ds, r') => (c :: ds, r')
              end
            else ([], r0)
        | [] => ([], r0)
        end in
      let (exp, r2) :=
        match r1 with
        | c :: r =>
            if ((c =? 101) || (c =? 69))%N then
              let (sg, r') :=
                match r with
                | d :: r'' =>
                    if ((d =? 45) || (d =? 43))%N then ([d], r'') else ([], r)
                | [] => ([], r)
                end in
              match take_digits r' with
              | ([], _) => ([], r1)
              | (ds, r'') => (c :: sg ++ ds, r'')
              end
            else ([], r1)
        | [] => ([], r1)
        end in
      let text := sign ++ ip ++ frac ++ exp in
      let v :=
        match frac, exp with
        | [], [] =>
            JInt (match sign with
                  | [] => digits_value ip
                  | _ => - digits_value ip
                  end)
        | _, _ => JFloat text
        end in
      Some (v, r2, length text)
  end.

Definition hex_value (c : char) : option N :=
  if digit c then Some (c - 48)%N
  else if ((97 <=? c) && (c <=? 102))%N then Some (c - 87)%N
  else if ((65 <=? c) && (c <=? 70))%N then Some (c - 55)%N
  else None.

(** Four hexadecimal digits at the head of [s], which must not end there. *)
Definition hex4 (s : str) : option (N * str) :=
  match s with
  | a :: b :: c :: d :: (_ :: _) as r =>
      match hex_value a, hex_value b, hex_value c, hex_value d with
      | Some x, Some y, Some z, Some w =>
          Some (((x * 16 + y) * 16 + z) * 16 + w, r)%N
      | _, _, _, _ => None
      end
  | _ => None
  end.

Definition unescape (c : char) : option char :=
  if ((c =? 34) || (c =? 92) || (c =? 47))%N then Some c
  else if (c =? 98)%N then Some 8%N
  else if (c =? 102)%N then Some 12%N
  else if (c =? 110)%N then Some 10%N
  else if (c =? 114)%N then Some 13%N
  else if (c =? 116)%N then Some 9%N
  else None.

Definition high_surrogate (c : N) : bool := ((55296 <=? c) && (c <=? 56319))%N.
Definition low_surrogate (c : N) : bool := ((56320 <=? c) && (c <=? 57343))%N.

(** [scanstring(s, end, strict=True)]: [s] is the input after the opening
    quote, [i] its index, [begin] the index of the quote. *)
Fixpoint scanstring (fuel : nat) (begin : nat) (s : str) (i : nat)
    (acc : str) : res (str * str * nat) :=
  let unterminated := inr (DecodeError "Unterminated string starting at" begin) in
  match fuel with
  | 0 => unterminated
  | S fuel' =>
      match s with
      | [] => unterminated
      | c :: s1 =>
          if (c =? 34)%N then inl (rev acc, s1, S i)
          else if (c =? 92)%N then
            match s1 with
            | [] => unterminated
            | e :: s2 =>
                if (e =? 117)%N then
                  match hex4 s2 with
                  | None => inr (DecodeError "Invalid \uXXXX escape" (S i))
                  | Some (uni, s3) =>
                      match s3 with
                      | b :: u :: s4 =>
                          if (high_surrogate uni && (b =? 92) && (u =? 117))%N
                          then
                            match hex4 s4 with
                            | None =>
                                inr (DecodeError "Invalid \uXXXX escape" (i + 7))
                            | Some (uni2, s5) =>
                                if low_surrogate uni2 then
                                  scanstring fuel' begin s5 (i + 12)
                                    ((65536 + (uni - 55296) * 1024
                                      + (uni2 - 56320))%N :: acc)
                                else scanstring fuel' begin s3 (i + 6) (uni :: acc)
                            end
                          else scanstring fuel' begin s3 (i + 6) (uni :: acc)
                      | _ => scanstring fuel' begin s3 (i + 6) (uni :: acc)
                      end
                  end
                else
                  match unescape e with
                  | Some ch => scanstring fuel' begin s2 (i + 2) (ch :: acc)
                  | None => inr (DecodeError "Invalid \escape" i)
                  end
            end
          else if (c <=? 31)%N then
            inr (DecodeError "Invalid control character at" i)
          else scanstring fuel' begin s1 (S i) (c :: acc)
      end
  end.

Definition expecting_name (i : nat) : error :=
  DecodeError "Expecting property name enclosed in double quotes" i.

(** [scan_once], with the loops of [JSONObject] and [JSONArray]. *)
Fixpoint scan_once (fuel : nat) (s : str) (i : nat) {struct fuel}
    : res (json * str * nat) :=
  match fuel with
  | 0 => inr DepthError
  | S fuel' =>
      match s with
      | [] => inr (DecodeError "Expecting value" i)
      | c :: s1 =>
          if (c =? 34)%N then
            match scanstring (S (length s1)) i s1 (S i) [] with
            | inl (v, r, j) => inl (JStr v, r, j)
            | inr e => inr e
            end
          else if (c =? 123)%N then
            let (s2, i2) := skip_ws s1 (S i) in
            match s2 with
            | d :: s3 =>
                if (d =? 125)%N then inl (JObj [], s3, S i2)
                else if (d =? 34)%N then object_items fuel' s3 (S i2) []
                else inr (expecting_name i2)
            | [] => inr (expecting_name i2)
            end
          else if (c =? 91)%N then
            let (s2, i2) := skip_ws s1 (S i) in
            match s2 with
            | d :: s3 =>
                if (d =? 93)%N then inl (JArr [], s3, S i2)
                else array_items fuel' s2 i2 []
            | [] => array_items fuel' s2 i2 []
            end
          else if startswith s (lit "null") then inl (JNull, skipn 4 s, i + 4)
          else if startswith s (lit "true") then
            inl (JBool true, skipn 4 s, i + 4)
          else if startswith s (lit "false") then
            inl (JBool false, skipn 5 s, i + 5)
          else
            match scan_number s with
            | Some (v, r, n) => inl (v, r, i + n)
            | None =>
                if startswith s (lit "NaN") then
                  inl (JFloat (lit "NaN"), skipn 3 s, i + 3)
                else if startswith s (lit "Infinity") then
                  inl (JFloat (lit "Infinity"), skipn 8 s, i + 8)
                else if startswith s (lit "-Infinity") then
                  inl (JFloat (lit "-Infinity"), skipn 9 s, i + 9)
                else inr (DecodeError "Expecting value" i)
            end
      end
  end

with object_items (fuel : nat) (s : str) (i : nat) (pairs : dict)
    {struct fuel} : res (json * str * nat) :=
  match fuel with
  | 0 => inr DepthError
  | S fuel' =>
      match scanstring (S (length s)) (i - 1) s i [] with
      | inr e => inr e
      | inl (key, s1, i1) =>
          let (s2, i2) := skip_ws s1 i1 in
          match s2 with
          | c :: s3 =>
              if (c =? 58)%N then
                let (s4, i4) := skip_ws s3 (S i2) in
                match scan_once fuel' s4 i4 with
                | inr e => inr e
                | inl (value, s5, i5) =>
                    let pairs' := dict_set pairs key value in
                    let (s6, i6) := skip_ws s5 i5 in
                    match s6 with
                    | d :: s7 =>
                        if (d =? 125)%N then inl (JObj pairs', s7, S i6)
                        else if (d =? 44)%N then
                          let (s8, i8) := skip_ws s7 (S i6) in
                          match s8 with
                          | q :: s9 =>
                              if (q =? 34)%N
                              then object_items fuel' s9 (S i8) pairs'
                              else inr (expecting_name i8)
                          | [] => inr (expecting_name i8)
                          end
                        else inr (DecodeError "Expecting ',' delimiter" i6)
                    | [] => inr (DecodeError "Expecting ',' delimiter" i6)
                    end
                end
              else inr (DecodeError "Expecting ':' delimiter" i2)
          | [] => inr (DecodeError "Expecting ':' delimiter" i2)
          end
      end
  end

with array_items (fuel : nat) (s : str) (i : nat) (acc : list json)
    {struct fuel} : res (json * str * nat) :=
  match fuel with
  | 0 => inr DepthError
  | S fuel' =>
      match scan_once fuel' s i with
      | inr e => inr e
      | inl (value, s1, i1) =>
          let (s2, i2) := skip_ws s1 i1 in
          match s2 with
          | d :: s3 =>
              if (d =? 93)%N then inl (JArr (rev (value :: acc)), s3, S i2)
              else if (d =? 44)%N then
                let (s4, i4) := skip_ws s3 (S i2) in
                array_items fuel' s4 i4 (value :: acc)
              else inr (DecodeError "Expecting ',' delimiter" i2)
          | [] => inr (DecodeError "Expecting ',' delimiter" i2)
          end
      end
  end.

(** [str(JSONDecodeError(msg, doc, pos))] *)
Definition errmsg (msg : string) (doc : str) (pos : nat) : str :=
  let before := firstn pos doc in
  let lineno := count_occ N.eq_dec before 10%N + 1 in
  let colno :=
    match rfind 10%N before with
    | None => pos + 1
    | Some j => pos - j
    end in
  lit msg ++ lit ": line " ++ of_nat lineno ++ lit " column " ++ of_nat colno
  ++ lit " (char " ++ of_nat pos ++ lit ")".

Definition decode_error (msg : string) (doc : str) (pos : nat) : exn :=
  Exn JSONDecodeError (errmsg msg doc pos).

Definition loads (doc : str) : result json :=
  if startswith doc [65279%N] then
    Raise (decode_error "Unexpected UTF-8 BOM (decode using utf-8-sig)" doc 0)
  else
    let (s0, i0) := skip_ws doc 0 in
    match scan_once (2 * length doc + 2) s0 i0 with
    | inr (DecodeError msg pos) => Raise (decode_error msg doc pos)
    | inr DepthError =>
        Raise (Exn RecursionError (lit "maximum recursion depth exceeded"))
    | inl (v, s1, i1) =>
        match skip_ws s1 i1 with
        | ([], _) => Ok v
        | (_ :: _, i2) => Raise (decode_error "Extra data" doc i2)
        end
    end.

(** A document that opens with a brace decodes to an object or not at
    all. *)
Lemma object_items_object :
  forall fuel s i pairs v r j,
    object_items fuel s i pairs = inl (v, r, j) -> exists d, v = JObj d.
Proof.
  induction fuel as [|fuel IH]; intros s i pairs v r j H;
    [discriminate H|].
  cbn [object_items] in H.
  repeat match type of H with
         | context [match ?x with _ => _ end] => destruct x eqn:?
         end;
    try discriminate H.
  - injection H as <- _ _. now eexists.
  - now apply IH in H.
Qed.

Lemma loads_object :
  forall doc v,
    loads doc = Ok v -> hd_error doc = Some 123%N -> exists d, v = JObj d.
Proof.
  intros doc v H Hd. destruct doc as [|c doc]; [discriminate Hd|].
  injection Hd as ->. unfold loads in H.
  change (startswith (123%N :: doc) [65279%N]) with false in H.
  change (skip_ws (123%N :: doc) 0) with (123%N :: doc, 0) in H.
  cbv beta iota zeta in H.
  match type of H with
  | context [scan_once ?f ?s ?i] =>
      destruct (scan_once f s i) as [[[v' r] j]|e] eqn:E
  end.
  - assert (Hv : exists d, v' = JObj d).
    { cbn [Nat.mul Nat.add length scan_once] in E.
      change (123 =? 34)%N with false in E.
      change (123 =? 123)%N with true in E.
      cbv beta iota in E.
      repeat match type of E with
             | context [match ?x with _ => _ end] => destruct x eqn:?
             end;
        try discriminate E.
      - injection E as <- _ _. now eexists.
      - now apply object_items_object in E. }
    destruct Hv as [d ->].
    destruct (skip_ws r j) as [[|x rest] i2]; [|discriminate H].
    injection H as <-. now exists d.
  - destruct e; discriminate H.
Qed.

End JsonDecoder.

(* ================================================================== *)
(** ** The Python runtime the program runs on *)

(** Three library functions the program calls are not part of the
    repository.  [str.lower()] follows the Unicode case tables (and is not
    even character-wise: a final sigma depends on its context); what the
    keyword matching relies on is its ASCII behaviour, which is the law of
    the class.  [str(x)] is applied by [clean_unicode] to a [text] field that
    is not a string.  [json.loads] decodes the model's answer; of it the
    program relies on one fact, the second law: a document that opens with
    a brace decodes to a [dict] or raises. *)
Class Runtime := {
  lower : str -> str;
  lower_ascii :
    forall s, forallb is_ascii s = true -> lower s = map ascii_lower s;
  str_of_value : json -> str;
  json_loads : str -> result json;
  json_loads_object :
    forall doc v,
      json_loads doc = Ok v -> hd_error doc = Some 123%N ->
      exists d, v = JObj d
}.

(** [str(x)] for a decoded document.  It is CPython's for [None], a
    [bool], an [int] and a [str].  It is an approximation for the rest: a
    [float] prints as the literal of the document, where CPython prints the
    shortest [repr] of the parsed number ([1e2] gives [100.0]), and a
    container prints as its brackets only, where CPython prints the [repr]
    of its elements.  The properties below are stated for every [Runtime];
    this function serves concrete runs only. *)
Definition reference_str (v : json) : str :=
  match v with
  | JNull => lit "None"
  | JBool true => lit "True"
  | JBool false => lit "False"
  | JInt z =>
      if (z <? 0)%Z then lit "-" ++ of_nat (Z.to_nat (- z))
      else of_nat (Z.to_nat z)
  | JFloat literal => literal
  | JStr s => s
  | JArr _ => lit "[...]"
  | JObj _ => lit "{...}"
  end.

(** The runtime used for concrete runs: it agrees with CPython on ASCII
    text and on the documents decoded below. *)
#[export] Instance reference_runtime : Runtime.
Proof.
  refine {| lower := map ascii_lower;
            str_of_value := reference_str;
            json_loads := JsonDecoder.loads |}.
  - intros s _. reflexivity.
  - exact JsonDecoder.loads_object.
Defined.

(* ================================================================== *)
(** ** Text sanitizer *)

Definition is_surrogate (c : char) : bool :=
  ((55296 <=? c) && (c <=? 57343))%N.

Definition utf8_char (c : char) : list N :=
  (if c <? 128 then [c]
   else if c <? 2048 then [192 + c / 64; 128 + c mod 64]
   else if c <? 65536 then
     [224 + c / 4096; 128 + (c / 64) mod 64; 128 + c mod 64]
   else [240 + c / 262144; 128 + (c / 4096) mod 64;
         128 + (c / 64) mod 64; 128 + c mod 64])%N.

Definition encode_error : exn :=
  Exn UnicodeEncodeError
      (lit "'utf-8' codec can't encode character: surrogates not allowed").

(** [text.encode('utf-8', 'strict')]: a surrogate code point has no UTF-8
    form. *)
Fixpoint encode_utf8_strict (text : str) : result (list N) :=
  match text with
  | [] => Ok []
  | c :: text' =>
      if is_surrogate c then Raise encode_error
      else match encode_utf8_strict text' with
           | Ok bytes => Ok (utf8_char c ++ bytes)
           | Raise e => Raise e
           end
  end.

Definition replacement_character : char := 65533%N.
Definition question_mark : char := 63%N.

(** [re.sub] of every character of the class [\ud800-\udfff] by U+FFFD *)
Definition sub_surrogates (text : str) : str :=
  map (fun c => if is_surrogate c then replacement_character else c) text.

(** [text.encode('utf-8', 'replace').decode('utf-8')] *)
Definition encode_replace_decode (text : str) : str :=
  map (fun c => if is_surrogate c then question_mark else c) text.

(** [clean_unicode] on a [str] argument. *)
Definition clean_unicode (text : str) : result str :=
  match encode_utf8_strict text with
  | Ok _ => Ok text
  | Raise e =>
      match exn_kind e with
      | UnicodeEncodeError => Ok (sub_surrogates text)
      | _ => Ok (encode_replace_decode text)
      end
  end.

(** [clean_unicode] on any decoded value: the [isinstance] test first. *)
Definition clean_unicode_value {RT : Runtime} (text : json) : result str :=
  match text with
  | JStr s => clean_unicode s
  | _ => Ok (str_of_value text)
  end.

(* ================================================================== *)
(** ** Regular expressions, as Python's [re] runs them *)

(** [re] is a backtracking matcher: alternatives are tried in priority order
    and the first complete match wins.  The matcher below is written in
    continuation-passing style, the continuation being "the rest of the
    pattern"; [None] from the continuation is a backtrack. *)
Module Re.

Inductive regex :=
| Eps
| Chr (p : char -> bool)          (* one character of a class *)
| Cat (r1 r2 : regex)
| Opt (r : regex)                 (* r?   greedy *)
| Star (r : regex)                (* r*   greedy *)
| StarLazy (r : regex).           (* r*?  lazy *)

Section Exec.
Variable R : Type.

(** A repetition stops iterating when its body consumed nothing; the bodies
    of this program's patterns always consume, and the input length bounds
    the number of iterations. *)
Fixpoint star_greedy (body : str -> (str -> option R) -> option R)
    (fuel : nat) (s : str) (k : str -> option R) : option R :=
  match fuel with
  | 0 => k s
  | S fuel' =>
      match body s (fun s' => if length s' <? length s
                              then star_greedy body fuel' s' k else None) with
      | Some v => Some v
      | None => k s
      end
  end.

Fixpoint star_lazy (body : str -> (str -> option R) -> option R)
    (fuel : nat) (s : str) (k : str -> option R) : option R :=
  match k s with
  | Some v => Some v
  | None =>
      match fuel with
      | 0 => None
      | S fuel' =>
          body s (fun s' => if length s' <? length s
                            then star_lazy body fuel' s' k else None)
      end
  end.

Fixpoint exec (r : regex) (s : str) (k : str -> option R) : option R :=
  match r with
  | Eps => k s
  | Chr p =>
      match s with
      | c :: s' => if p c then k s' else None
      | [] => None
      end
  | Cat r1 r2 => exec r1 s (fun s' => exec r2 s' k)
  | Opt r1 =>
      match exec r1 s k with
      | Some v => Some v
      | None => k s
      end
  | Star r1 => star_greedy (exec r1) (length s) s k
  | StarLazy r1 => star_lazy (exec r1) (length s) s k
  end.

End Exec.

(** The text consumed between two positions of the same string. *)
Definition consumed (from to : str) : str :=
  firstn (length from - length to) from.

(** A pattern with exactly one capturing group: what stands before the
    group, the group, what stands after it. *)
Record pattern := { before : regex; group1 : regex; after : regex }.

(** A match anchored at the start of [s]; the result is [group(1)]. *)
Definition match_group (p : pattern) (s : str) : option str :=
  exec (before p) s (fun s1 =>
  exec (group1 p) s1 (fun s2 =>
  exec (after p) s2 (fun _ => Some (consumed s1 s2)))).

(** [re.search(p, s).group(1)]: the leftmost position with a match. *)
Fixpoint search (p : pattern) (s : str) : option str :=
  match match_group p s with
  | Some g => Some g
  | None =>
      match s with
      | [] => None
      | _ :: s' => search p s'
      end
  end.

(** A match of a group-less pattern anchored at the start of [s]: the
    matched text and what follows it. *)
Definition match_whole (r : regex) (s : str) : option (str * str) :=
  exec r s (fun rest => Some (consumed s rest, rest)).

(** [re.findall(r, s)] for a pattern without groups: the non-overlapping
    matches from left to right.  After an empty match the scan moves one
    character on. *)
Fixpoint findall_from (fuel : nat) (r : regex) (s : str) : list str :=
  match fuel with
  | 0 => []
  | S fuel' =>
      let advance :=
        match s with
        | [] => []
        | _ :: s' => findall_from fuel' r s'
        end in
      match match_whole r s with
      | Some (m, rest) =>
          m :: (if length rest <? length s then findall_from fuel' r rest
                else advance)
      | None => advance
      end
  end.

Definition findall (r : regex) (s : str) : list str :=
  findall_from (S (length s)) r s.

(** A literal string, character by character. *)
Fixpoint Lit (w : str) : regex :=
  match w with
  | [] => Eps
  | c :: w' => Cat (Chr (N.eqb c)) (Lit w')
  end.

Definition one_of (cs : list char) : char -> bool :=
  fun c => existsb (N.eqb c) cs.

(** The declarative reading of a pattern: the strings it can consume. *)
Inductive Matches : regex -> str -> Prop :=
| MEps : Matches Eps []
| MChr p c : p c = true -> Matches (Chr p) [c]
| MCat r1 r2 a b : Matches r1 a -> Matches r2 b -> Matches (Cat r1 r2) (a ++ b)
| MOptNone r : Matches (Opt r) []
| MOptSome r a : Matches r a -> Matches (Opt r) a
| MStarNil r : Matches (Star r) []
| MStarCons r a b :
    Matches r a -> Matches (Star r) b -> Matches (Star r) (a ++ b)
| MLazyNil r : Matches (StarLazy r) []
| MLazyCons r a b :
    Matches r a -> Matches (StarLazy r) b -> Matches (StarLazy r) (a ++ b).

End Re.

Import Re.

(* ================================================================== *)
(** ** Response parser *)

Definition backtick : char := 96%N.
Definition lbrace : char := 123%N.
Definition rbrace : char := 125%N.

Definition any_char : char -> bool := fun _ => true.
Definition not_brace : char -> bool :=
  fun c => negb ((c =? lbrace) || (c =? rbrace))%N.

(** [json] under [re.IGNORECASE]: each letter also matches its upper-case
    form, and [s] matches U+017F (long s) as well, which the Unicode case
    folding of [re] puts in the same class. *)
Definition json_label_ci : regex :=
  Cat (Chr (one_of [106; 74]%N))
 (Cat (Chr (one_of [115; 83; 383]%N))
 (Cat (Chr (one_of [111; 79]%N))
      (Chr (one_of [110; 78]%N)))).

Definition fence : regex := Lit [backtick; backtick; backtick].

(** [r'```(?:json)?\s*(\{.*?\})\s*```'] with [re.DOTALL | re.IGNORECASE] *)
Definition json_block_pattern : pattern :=
  {| before := Cat fence (Cat (Opt json_label_ci) (Star (Chr isspace)));
     group1 := Cat (Chr (N.eqb lbrace))
                   (Cat (StarLazy (Chr any_char)) (Chr (N.eqb rbrace)));
     after := Cat (Star (Chr isspace)) fence |}.

(** The pattern of method 2 (line 80), under [re.DOTALL]: a [{], a greedy
    run of [[^{}]], then greedily any number of groups
    "[{], run of [[^{}]], [}], run of [[^{}]]", then a [}].  The group is
    non-capturing, so [findall] returns whole matches. *)
Definition json_pattern : regex :=
  Cat (Chr (N.eqb lbrace))
 (Cat (Star (Chr not_brace))
 (Cat (Star (Cat (Chr (N.eqb lbrace))
            (Cat (Star (Chr not_brace))
            (Cat (Chr (N.eqb rbrace))
                 (Star (Chr not_brace))))))
      (Chr (N.eqb rbrace)))).

(** [max(matches, key=len)] on a non-empty list: the first of the longest. *)
Fixpoint max_by_len (best : str) (rest : list str) : str :=
  match rest with
  | [] => best
  | x :: rest' =>
      if length best <? length x then max_by_len x rest'
      else max_by_len best rest'
  end.

Definition method1 (text : str) : option str :=
  match search json_block_pattern text with
  | Some g => Some (strip g)
  | None => None
  end.

Definition method2 (text : str) : option str :=
  match findall json_pattern text with
  | m :: ms => Some (strip (max_by_len m ms))
  | [] => None
  end.

Definition method3 (text : str) : option str :=
  match find lbrace text, rfind rbrace text with
  | Some start_idx, Some end_idx =>
      if start_idx <? end_idx
      then Some (strip (slice text start_idx (end_idx + 1)))
      else None
  | _, _ => None
  end.

Definition extract_json_from_text (text : str) : option str :=
  match method1 text with
  | Some r => Some r
  | None =>
      match method2 text with
      | Some r => Some r
      | None => method3 text
      end
  end.
(* ================================================================== *)
(** ** Fallback metadata generator *)

Section Fallback.
Context {RT : Runtime}.

Definition french_words : list str :=
  map lit ["le"; "la"; "les"; "de"; "du"; "des"; "et"; "est"; "une"; "un";
           "ce"; "cette"]%string.

Definition linkedin_keywords : list (str * list str) :=
  [ (lit "career", map lit ["career"; "job"; "work"; "employment"]%string);
    (lit "business",
       map lit ["business"; "company"; "startup"; "entrepreneur"]%string);
    (lit "tech",
       map lit ["technology"; "tech"; "ai"; "digital"; "software"]%string);
    (lit "leadership",
       map lit ["leadership"; "management"; "team"; "leader"]%string);
    (lit "marketing", map lit ["marketing"; "brand"; "social media"]%string);
    (lit "networking",
       map lit ["network"; "connection"; "professional"]%string) ].

(** [sum(1 for word in french_words if word in text_lower)] *)
Definition french_count (text_lower : str) : nat :=
  length (filter (fun word => contains text_lower word) french_words).

Definition fallback_language (post : str) : str :=
  if 3 <? french_count (lower post) then lit "French" else lit "English".

(** The loop over [linkedin_keywords.items()], with its [break]. *)
Fixpoint collect_tags (table : list (str * list str)) (post_lower : str)
    (tags : list str) : list str :=
  match table with
  | [] => tags
  | (tag, keywords) :: rest =>
      if existsb (fun keyword => contains post_lower keyword) keywords then
        let tags' := tags ++ [tag] in
        if 2 <=? length tags' then tags' else collect_tags rest post_lower tags'
      else collect_tags rest post_lower tags
  end.

Definition fallback_tags (post : str) : list str :=
  collect_tags linkedin_keywords (lower post) [].

Definition newline : char := 10%N.

Definition fallback_line_count (post : str) : nat :=
  length (split newline post).

Definition get_fallback_metadata (post : str) : dict :=
  [ (lit "line_count", JInt (Z.of_nat (fallback_line_count post)));
    (lit "language", JStr (fallback_language post));
    (lit "tags", JArr (map JStr (fallback_tags post))) ].

End Fallback.


(* ================================================================== *)
(** ** The completion capability and the effects of a run *)

(** [chain.invoke]: the prompt goes to the model, which answers with a text
    (the [content] of the response) or raises.  The model is outside the
    program; its state is whatever it is. *)
Class Completion := {
  World : Type;
  chain_invoke : str -> World -> result str * World
}.

(** What a run does to the outside, in order. *)
Inductive event :=
| Invoked (prompt : str)          (* one call of the completion capability *)
| Slept (seconds : Z).            (* [time.sleep] *)

Section Pipeline.
Context {RT : Runtime} {LLM : Completion}.

Record state := State { world : World; log : list event }.

Definition sleep (seconds : Z) (st : state) : state :=
  {| world := world st; log := log st ++ [Slept seconds] |}.

(* ------------------------------------------------------------------ *)
(** *** Single-shot extractor *)

Definition double_quote : str := [34%N].

Definition max_post_length : nat := 1000.

Definition truncate_post (post : str) : str :=
  if max_post_length <? length post
  then firstn max_post_length post ++ lit "..."
  else post.

Definition template_head : str :=
  lit "Extract the following information from this LinkedIn post:
    - line_count: number of lines
    - language: either " ++ double_quote ++ lit "English" ++ double_quote
  ++ lit " or " ++ double_quote ++ lit "French" ++ double_quote ++ lit "
    - tags: array of maximum two relevant tags

    CRITICAL: Return ONLY a valid JSON object. No explanations, no markdown, no additional text.

    Post: ".

Definition template_tail : str := lit "

    JSON:".

Definition render_prompt (post : str) : str :=
  template_head ++ post ++ template_tail.

Definition no_json_error : exn :=
  Exn ValueError (lit "No valid JSON found in response").

Definition extract_metadata (post : str) (st : state) : result json * state :=
  let post := truncate_post post in
  let prompt := render_prompt post in
  let (response, w) := chain_invoke prompt (world st) in
  let st' := {| world := w; log := log st ++ [Invoked prompt] |} in
  match response with
  | Raise e => (Raise e, st')
  | Ok content =>
      let text := strip content in
      match extract_json_from_text text with
      | None => (Raise no_json_error, st')
      | Some [] => (Raise no_json_error, st')
      | Some json_str => (json_loads json_str, st')
      end
  end.

(* ------------------------------------------------------------------ *)
(** *** Retry controller *)

Definition retryable_markers : list str :=
  map lit ["503"; "service unavailable"; "invalid json output";
           "expecting value"; "context too big"]%string.

(** The test of lines 105-107 on [error_msg = str(e).lower()]. *)
Definition is_retryable (error_msg : str) : bool :=
  existsb (fun marker => contains error_msg marker) retryable_markers.

Definition wait_time (attempt : nat) : Z := (2 ^ Z.of_nat attempt * 5)%Z.

(** The [for attempt in range(max_retries)] loop, [remaining] iterations
    before it runs out; leaving the loop, by exhaustion or by [break], is
    the fallback.  The loop calls whatever the name [extract_metadata]
    stands for when it runs, so it is written over the extractor. *)
Section Retry.
Variable extract : str -> state -> result json * state.

Fixpoint retry_loop (post : str) (max_retries remaining attempt : nat)
    (st : state) : result json * state :=
  match remaining with
  | 0 => (Ok (JObj (get_fallback_metadata post)), st)
  | S remaining' =>
      match extract post st with
      | (Ok metadata, st1) => (Ok metadata, st1)
      | (Raise e, st1) =>
          let error_msg := lower (exn_str e) in
          if is_retryable error_msg then
            let st2 := if attempt <? max_retries - 1
                       then sleep (wait_time attempt) st1 else st1 in
            retry_loop post max_retries remaining' (S attempt) st2
          else (Ok (JObj (get_fallback_metadata post)), st1)
      end
  end.

Definition retry_controller (post : str) (max_retries : nat) (st : state)
    : result json * state :=
  retry_loop post max_retries max_retries 0 st.

End Retry.

Definition extract_metadata_with_retry (post : str) (max_retries : nat)
    (st : state) : result json * state :=
  retry_controller extract_metadata post max_retries st.

Definition default_max_retries : nat := 3.

(* ------------------------------------------------------------------ *)
(** *** Batch processor *)

Definition text_key : str := lit "text".

(** The metadata built in the [except] branch of the loop (lines 30-34). *)
Definition handler_metadata (text : str) : dict :=
  [ (lit "line_count", JInt (Z.of_nat (length (split newline text))));
    (lit "language", JStr (lit "English"));
    (lit "tags", JArr []) ].

(** The [try] body for one post.  Besides its outcome it yields the post as
    the body left it: [post['text'] = clean_text] updates the post in place
    and the [except] branch reads the updated object. *)
Definition enrich (post : json) (st : state) : result dict * json * state :=
  match post with
  | JObj d =>
      match dict_get d text_key with
      | None => (Raise (Exn KeyError (lit "'text'")), post, st)
      | Some text =>
          match clean_unicode_value text with
          | Raise e => (Raise e, post, st)
          | Ok clean_text =>
              let post' := dict_set d text_key (JStr clean_text) in
              match extract_metadata_with_retry clean_text default_max_retries st with
              | (Raise e, st1) => (Raise e, JObj post', st1)
              | (Ok (JObj metadata), st1) =>
                  (Ok (dict_merge post' metadata), JObj post', st1)
              | (Ok _, st1) =>
                  (Raise (Exn TypeError (lit "object is not a mapping")),
                   JObj post', st1)
              end
          end
      end
  | _ => (Raise (Exn TypeError (lit "object is not subscriptable")), post, st)
  end.

(** The [except Exception] branch: it can raise itself, and then nothing
    catches it. *)
Definition fallback_record (post : json) : result dict :=
  match post with
  | JObj d =>
      match dict_get d text_key with
      | None => Ok (dict_merge d (handler_metadata []))
      | Some (JStr text) => Ok (dict_merge d (handler_metadata text))
      | Some _ =>
          Raise (Exn AttributeError (lit "object has no attribute 'split'"))
      end
  | _ => Raise (Exn AttributeError (lit "object has no attribute 'get'"))
  end.

Fixpoint process_loop (posts : list json) (enriched_posts : list dict)
    (st : state) : result (list dict) * state :=
  match posts with
  | [] => (Ok enriched_posts, st)
  | post :: rest =>
      match enrich post st with
      | (Ok post_metadata, _, st1) =>
          process_loop rest (enriched_posts ++ [post_metadata]) st1
      | (Raise _, post', st1) =>
          match fallback_record post' with
          | Ok post_metadata =>
              process_loop rest (enriched_posts ++ [post_metadata]) st1
          | Raise e => (Raise e, st1)
          end
      end
  end.

(** [process_posts] on the decoded content of the input file.  Reading the
    file and [write_json_safely] are input and output; the write works on a
    sanitized copy and leaves the returned list as it is. *)
Definition process_posts (posts : list json) (st : state)
    : result (list dict) * state :=
  process_loop posts [] st.

End Pipeline.

(* ================================================================== *)
(** ** Scripted completion capabilities, for concrete runs *)

(** A model that gives the answers of a script, one per call, and raises
    once the script is over. *)
Definition script_over : exn := Exn OtherError (lit "connection refused").

Definition scripted_invoke (prompt : str) (w : list (result str))
    : result str * list (result str) :=
  match w with
  | answer :: w' => (answer, w')
  | [] => (Raise script_over, [])
  end.

#[export] Instance scripted : Completion :=
  {| World := list (result str); chain_invoke := scripted_invoke |}.

Definition run_on (answers : list (result str)) : @state scripted :=
  @State scripted answers [].

(** A model that is down: every call raises the same error. *)
#[export] Instance always_raising (e : exn) : Completion :=
  {| World := unit; chain_invoke := fun _ w => (Raise e, w) |}.

Definition down_on (e : exn) : @state (always_raising e) :=
  @State (always_raising e) tt [].

Definition unavailable : exn :=
  Exn OtherError (lit "Error code: 503 - Service Unavailable").

Definition unauthenticated : exn :=
  Exn OtherError (lit "authentication failed").

(* ================================================================== *)
(** ** Reading a log *)

(** The seconds slept, in order, and the number of completion calls. *)
Definition sleeps (l : list event) : list Z :=
  flat_map (fun e => match e with Slept z => [z] | Invoked _ => [] end) l.

Definition invocations (l : list event) : nat :=
  length (filter (fun e => match e with Invoked _ => true | Slept _ => false end) l).

(** An input record that is a mapping. *)
Definition is_mapping (post : json) : Prop := exists d, post = JObj d.


(** The prompt one call of the extractor sends. *)
Definition prompt_of (post : str) : str := render_prompt (truncate_post post).

(** How an output record comes from its input record: a post without
    [text] gets the fallback metadata of the empty text; otherwise the text
    is sanitized in place and the metadata is what the retry controller
    returned for the sanitized text, merged over the post. *)
Section Correspondence.
Context {RT : Runtime} {LLM : Completion}.

Definition derived_from (post : json) (record : dict) : Prop :=
  exists d,
    post = JObj d
    /\ match dict_get d text_key with
       | None => record = dict_merge d (get_fallback_metadata [])
       | Some text =>
           exists clean_text metadata s s',
             clean_unicode_value text = Ok clean_text
             /\ extract_metadata_with_retry clean_text default_max_retries s
                = (Ok (JObj metadata), s')
             /\ record
                = dict_merge (dict_set d text_key (JStr clean_text)) metadata
       end.

Definition keeps_fields (post : json) (record : dict) : Prop :=
  forall d k, post = JObj d -> In k (dict_keys d) -> In k (dict_keys record).

End Correspondence.

(* ================================================================== *)
(** ** The specification's side *)

(** The Metadata schema as the specification words it: a non-negative
    [line_count], a [language] that is English or French, at most two
    [tags], each from the fixed category set. *)
Definition category_set : list str :=
  map lit ["career"; "business"; "tech"; "leadership"; "marketing";
           "networking"]%string.

Definition is_category_tag (t : json) : bool :=
  match t with
  | JStr x => existsb (str_eqb x) category_set
  | _ => false
  end.

Definition schema_invariant (md : json) : bool :=
  match md with
  | JObj d =>
      match dict_get d (lit "line_count"), dict_get d (lit "language"),
            dict_get d (lit "tags") with
      | Some (JInt n), Some (JStr l), Some (JArr ts) =>
          (0 <=? n)%Z
          && (str_eqb l (lit "English") || str_eqb l (lit "French"))
          && (length ts <=? 2)
          && forallb is_category_tag ts
      | _, _, _ => false
      end
  | _ => false
  end.

(** The three fields with their stated types, and nothing about their
    values. *)
Definition has_metadata_fields (md : json) : bool :=
  match md with
  | JObj d =>
      match dict_get d (lit "line_count"), dict_get d (lit "language"),
            dict_get d (lit "tags") with
      | Some (JInt _), Some (JStr _), Some (JArr ts) =>
          forallb (fun t => match t with JStr _ => true | _ => false end) ts
      | _, _, _ => false
      end
  | _ => false
  end.

(** The language heuristic as the specification words it: the text is cut
    into lower-case words and the occurrences of French function words
    among them are counted. *)
Fixpoint words_from (s : str) (current : str) : list str :=
  match s with
  | [] => match current with [] => [] | _ => [rev current] end
  | c :: s' =>
      if isspace c then
        match current with
        | [] => words_from s' []
        | _ => rev current :: words_from s' []
        end
      else words_from s' (c :: current)
  end.

Definition spec_french_occurrences {RT : Runtime} (text : str) : nat :=
  length (filter (fun word => existsb (str_eqb word) french_words)
                 (words_from (lower text) [])).

Definition spec_language {RT : Runtime} (text : str) : str :=
  if 3 <? spec_french_occurrences text then lit "French" else lit "English".

(** The fence of a markdown code block, and a block: the fence, an optional
    label, the body between optional white space, the fence again. *)
Definition fence_text : str := [backtick; backtick; backtick].

Definition is_json_label (label : str) : bool :=
  match label with
  | [] => true
  | [a; b; c; d] =>
      one_of [106; 74]%N a && one_of [115; 83; 383]%N b
      && one_of [111; 79]%N c && one_of [110; 78]%N d
  | _ => false
  end.

Definition fenced_block (label ws1 body ws2 : str) : str :=
  fence_text ++ label ++ ws1 ++ body ++ ws2 ++ fence_text.

(** [{"line_count": 3, "language": "English", "tags": ["tech"]}] *)
Definition example_object : str :=
  lit "{" ++ [34%N] ++ lit "line_count" ++ [34%N] ++ lit ": 3, "
  ++ [34%N] ++ lit "language" ++ [34%N] ++ lit ": "
  ++ [34%N] ++ lit "English" ++ [34%N] ++ lit ", "
  ++ [34%N] ++ lit "tags" ++ [34%N] ++ lit ": ["
  ++ [34%N] ++ lit "tech" ++ [34%N] ++ lit "]}".

(** [{"line_count": "three", "mood": "happy"}] *)
Definition untyped_answer : str :=
  lit "{" ++ [34%N] ++ lit "line_count" ++ [34%N] ++ lit ": "
  ++ [34%N] ++ lit "three" ++ [34%N] ++ lit ", "
  ++ [34%N] ++ lit "mood" ++ [34%N] ++ lit ": "
  ++ [34%N] ++ lit "happy" ++ [34%N] ++ lit "}".

Definition untyped_value : json :=
  JObj [ (lit "line_count", JStr (lit "three"));
         (lit "mood", JStr (lit "happy")) ].

(** Two input records: one with a text of two lines, one without text. *)
Definition post_with_text : dict :=
  [ (lit "text", JStr (lit "Our team is hiring
apply now"));
    (lit "id", JInt 7) ].

Definition post_without_text : dict := [ (lit "id", JInt 8) ].

(** Answers of the model used in concrete runs. *)
Definition quoted (x : string) : str := [34%N] ++ lit x ++ [34%N].

(** [{"line_count": -5, "language": "German", "tags": ["a", "b", "c"]}] *)
Definition off_schema_answer : str :=
  lit "{" ++ quoted "line_count" ++ lit ": -5, " ++ quoted "language"
  ++ lit ": " ++ quoted "German" ++ lit ", " ++ quoted "tags" ++ lit ": ["
  ++ quoted "a" ++ lit ", " ++ quoted "b" ++ lit ", " ++ quoted "c"
  ++ lit "]}".

Definition off_schema_value : json :=
  JObj [ (lit "line_count", JInt (-5));
         (lit "language", JStr (lit "German"));
         (lit "tags", JArr [JStr (lit "a"); JStr (lit "b"); JStr (lit "c")]) ].

(* ================================================================== *)
(** ** Sanitizing nested data *)

(** [clean_data_recursively]: a string is cleaned; a dict is rebuilt by the
    comprehension of line 217, key first and value second for each item in
    order (the keys of a decoded document are strings, on which [str] is
    the identity); a list is rebuilt element by element; anything else is
    returned as it is. *)
Fixpoint clean_data_recursively (obj : json) : result json :=
  match obj with
  | JStr s =>
      match clean_unicode s with
      | Ok s' => Ok (JStr s')
      | Raise e => Raise e
      end
  | JObj d =>
      (fix items (d : dict) (acc : dict) {struct d} : result json :=
         match d with
         | [] => Ok (JObj acc)
         | (k, v) :: d' =>
             match clean_unicode k with
             | Raise e => Raise e
             | Ok k' =>
                 match clean_data_recursively v with
                 | Raise e => Raise e
                 | Ok v' => items d' (dict_set acc k' v')
                 end
             end
         end) d []
  | JArr l =>
      (fix elements (l : list json) (acc : list json) {struct l}
         : result json :=
         match l with
         | [] => Ok (JArr acc)
         | item :: l' =>
             match clean_data_recursively item with
             | Raise e => Raise e
             | Ok item' => elements l' (acc ++ [item'])
             end
         end) l []
  | _ => Ok obj
  end.

(** The two comprehensions on their own. *)
Fixpoint clean_items (d : dict) (acc : dict) : result json :=
  match d with
  | [] => Ok (JObj acc)
  | (k, v) :: d' =>
      match clean_unicode k with
      | Raise e => Raise e
      | Ok k' =>
          match clean_data_recursively v with
          | Raise e => Raise e
          | Ok v' => clean_items d' (dict_set acc k' v')
          end
      end
  end.

Fixpoint clean_elements (l : list json) (acc : list json) : result json :=
  match l with
  | [] => Ok (JArr acc)
  | item :: l' =>
      match clean_data_recursively item with
      | Raise e => Raise e
      | Ok item' => clean_elements l' (acc ++ [item'])
      end
  end.

(** No surrogate code point in any string of a value, keys included. *)
Fixpoint surrogate_free (j : json) : bool :=
  match j with
  | JStr s => negb (existsb is_surrogate s)
  | JArr l => forallb surrogate_free l
  | JObj d =>
      forallb (fun kv : str * json =>
                 let (k, v) := kv in
                 negb (existsb is_surrogate k) && surrogate_free v) d
  | _ => true
  end.

(** Every dict of a value has its keys once, as a Python dict has. *)
Fixpoint keys_unique (j : json) : Prop :=
  match j with
  | JArr l => fold_right (fun x rest => keys_unique x /\ rest) True l
  | JObj d =>
      NoDup (map fst d)
      /\ fold_right (fun (kv : str * json) rest =>
                       (let (_, v) := kv in keys_unique v) /\ rest)
           True d
  | _ => True
  end.

(** The categories whose trigger words occur in a lower-cased text, in the
    order of the table. *)
Definition matching_categories (post_lower : str) : list str :=
  map fst (filter (fun entry => existsb (fun keyword => contains post_lower keyword)
                                        (snd entry))
                  linkedin_keywords).

(* ================================================================== *)
(** ** Notions of the statements *)

(** Whatever the matcher hands to its continuation is what is left after a
    string of the pattern's language. *)
Definition sound_on (R : Type) (r : regex) : Prop :=
  forall (s : str) (k : str -> option R) (v : R),
    exec r s k = Some v ->
    exists a s', s = a ++ s' /\ Matches r a /\ k s' = Some v.

(** A text that opens with a brace and closes with one. *)
Definition braced (s : str) : Prop :=
  exists middle, s = lbrace :: middle ++ [rbrace].

(** A text that does not open with white space. *)
Definition starts_nonspace (s : str) : Prop :=
  match s with
  | c :: _ => isspace c = false
  | [] => True
  end.

Definition fallback_value {RT : Runtime} (post : str) : json :=
  JObj (get_fallback_metadata post).

(** The backoff of the specification: [5 * 2^a] seconds after attempt [a],
    for every attempt but the last. *)
Definition backoff_schedule (max_retries : nat) : list Z :=
  map (fun a => (5 * 2 ^ Z.of_nat a)%Z) (seq 0 (max_retries - 1)).

(** The events of a run that makes [k] calls, the first of them attempt
    [first], in the order of the log: a call, and after attempt [a], only
    when another call follows, a sleep of [5 * 2^a] seconds.  Nothing follows
    the last call. *)
Fixpoint calls_with_backoff (prompt : str) (first k : nat) : list event :=
  match k with
  | 0 => []
  | S k' =>
      Invoked prompt
      :: match k' with
         | 0 => []
         | S _ => Slept (5 * 2 ^ Z.of_nat first)%Z
                  :: calls_with_backoff prompt (S first) k'
         end
  end.

(** A trace in which every sleep stands between two calls: the event before
    it and the event after it are calls, and it lasts [5 * 2^a] seconds, [a]
    the number of the attempt before it, the attempts counted from
    [first]. *)
Definition sleeps_between_calls (prompt : str) (first : nat)
    (new : list event) : Prop :=
  forall (before : list event) (seconds : Z) (rest : list event),
    new = before ++ Slept seconds :: rest ->
    (exists l, before = l ++ [Invoked prompt])
    /\ (exists l, rest = Invoked prompt :: l)
    /\ seconds = (5 * 2 ^ Z.of_nat (first + invocations before - 1))%Z.

(** A trace whose last event, if it has one, is a call. *)
Definition ends_on_call (prompt : str) (new : list event) : Prop :=
  new = [] \/ exists l, new = l ++ [Invoked prompt].

(** An entry of a dict without surrogate in its key or its value. *)
Definition entry_clean (kv : str * json) : Prop :=
  existsb is_surrogate (fst kv) = false /\ surrogate_free (snd kv) = true.

(** What a sanitized value is: free of surrogates, its dicts well formed. *)
Definition sanitized (j : json) : Prop :=
  surrogate_free j = true /\ keys_unique j.

(** The trace of a step: at most three calls, at most two sleeps, of 5 and
    10 seconds. *)
Definition modest (new : list event) : Prop :=
  invocations new <= 3
  /\ length (sleeps new) <= 2
  /\ Forall (fun z => z = 5%Z \/ z = 10%Z) (sleeps new).

(** A contiguous part of a text. *)
Definition part_of (r text : str) : Prop := exists a b, text = a ++ r ++ b.

(** The test that an iteration of a repetition consumed something, when
    it visibly did. *)
Ltac consumed_something :=
  match goal with
  | |- context [?a <? ?b] =>
      destruct (Nat.ltb_spec a b) as [_ | Hstuck];
      [| exfalso; cbn [length] in Hstuck; lia]
  end.

(* ================================================================== *)
(** * Properties *)

(** ** Strings *)

Lemma str_eqb_eq (a b : str) : str_eqb a b = true <-> a = b.
Proof.
  revert b; induction a as [|c a IH]; intros [|d b]; simpl; split;
    try congruence; try reflexivity.
  - intros H. apply andb_true_iff in H as [H1 H2].
    apply N.eqb_eq in H1. apply IH in H2. congruence.
  - intros H. injection H as -> ->.
    rewrite N.eqb_refl. simpl. now apply IH.
Qed.

Lemma startswith_spec (s w : str) :
  startswith s w = true <-> exists b, s = w ++ b.
Proof.
  revert s; induction w as [|c w IH]; intros s; simpl.
  - split; [intros _; now exists s | reflexivity].
  - destruct s as [|d s].
    + split; [discriminate | intros [b Hb]; discriminate].
    + rewrite andb_true_iff, N.eqb_eq, IH. split.
      * intros [-> [b ->]]. now exists b.
      * intros [b Hb]. injection Hb as -> ->. split; [reflexivity | now exists b].
Qed.

(** [w in s] holds exactly when [w] is a contiguous part of [s]. *)
Lemma contains_spec (s w : str) :
  contains s w = true <-> exists a b, s = a ++ w ++ b.
Proof.
  induction s as [|d s IH].
  - simpl. rewrite orb_false_r, startswith_spec. split.
    + intros [b Hb]. now exists [], b.
    + intros [a [b Hb]]. destruct a; [now exists b | discriminate].
  - cbn [contains]. rewrite orb_true_iff, startswith_spec, IH. split.
    + intros [[b Hb] | [a [b Hb]]].
      * now exists [], b.
      * exists (d :: a), b. now rewrite Hb.
    + intros [[|x a] [b Hb]].
      * left. now exists b.
      * right. injection Hb as -> ->. now exists a, b.
Qed.

Lemma split_nonempty (sep : char) (s : str) : split sep s <> [].
Proof.
  induction s as [|c s IH]; simpl; [discriminate|].
  destruct (c =? sep)%N; [discriminate|].
  destruct (split sep s); [contradiction | discriminate].
Qed.

(** [len(s.split(sep))] is the number of separators plus one. *)
Lemma split_length (sep : char) (s : str) :
  length (split sep s) = S (count_occ N.eq_dec s sep).
Proof.
  induction s as [|c s IH]; simpl; [reflexivity|].
  destruct (N.eq_dec c sep) as [->|Hne].
  - rewrite N.eqb_refl. simpl. now rewrite IH.
  - apply N.eqb_neq in Hne. rewrite Hne.
    pose proof (split_nonempty sep s) as Hn.
    destruct (split sep s); [contradiction | exact IH].
Qed.

(* ------------------------------------------------------------------ *)
(** ** The sanitizer *)

Lemma encode_fails_on_surrogate (s : str) :
  existsb is_surrogate s = true -> encode_utf8_strict s = Raise encode_error.
Proof.
  induction s as [|c s IH]; simpl; [discriminate|].
  destruct (is_surrogate c); [reflexivity|]. simpl.
  intros H. now rewrite IH.
Qed.

Lemma encode_succeeds_without_surrogate (s : str) :
  existsb is_surrogate s = false -> exists bytes, encode_utf8_strict s = Ok bytes.
Proof.
  induction s as [|c s IH]; simpl; [now exists []|].
  destruct (is_surrogate c); [discriminate|]. simpl.
  intros H. destruct (IH H) as [bytes ->]. now eexists.
Qed.

Lemma sub_surrogates_clean (s : str) :
  existsb is_surrogate (sub_surrogates s) = false.
Proof.
  induction s as [|c s IH]; simpl; [reflexivity|].
  rewrite IH, orb_false_r.
  destruct (is_surrogate c) eqn:E; [reflexivity | exact E].
Qed.

(** What [clean_unicode] returns, branch by branch. *)
Lemma clean_unicode_value_of (s : str) :
  clean_unicode s =
  Ok (if existsb is_surrogate s then sub_surrogates s else s).
Proof.
  unfold clean_unicode. destruct (existsb is_surrogate s) eqn:E.
  - now rewrite (encode_fails_on_surrogate s E).
  - destruct (encode_succeeds_without_surrogate s E) as [bytes ->].
    reflexivity.
Qed.

(** C8.  On every string, surrogate code units included, [clean_unicode]
    returns (it never raises), what it returns holds no surrogate, and
    cleaning the result again gives the same string. *)
Theorem clean_unicode_total_idempotent :
  forall s : str,
    exists r, clean_unicode s = Ok r
              /\ existsb is_surrogate r = false
              /\ clean_unicode r = Ok r.
Proof.
  intros s. rewrite clean_unicode_value_of.
  destruct (existsb is_surrogate s) eqn:E.
  - exists (sub_surrogates s). split; [reflexivity|].
    split; [apply sub_surrogates_clean|].
    rewrite clean_unicode_value_of. now rewrite sub_surrogates_clean.
  - exists s. split; [reflexivity|]. split; [exact E|].
    rewrite clean_unicode_value_of. now rewrite E.
Qed.

(* ------------------------------------------------------------------ *)
(** ** The fallback generator *)

Section FallbackFacts.
Context {RT : Runtime}.

Lemma collect_tags_length (table : list (str * list str)) (pl : str) :
  forall tags, length tags <= 1 -> length (collect_tags table pl tags) <= 2.
Proof.
  induction table as [|[tag keywords] rest IH]; intros tags Hlen;
    cbn [collect_tags].
  - lia.
  - destruct (existsb _ keywords); [|now apply IH].
    assert (Hl : length (tags ++ [tag]) = S (length tags))
      by (rewrite length_app; simpl; lia).
    destruct (2 <=? length (tags ++ [tag])) eqn:E.
    + lia.
    + apply Nat.leb_gt in E. apply IH. lia.
Qed.

Lemma collect_tags_origin (table : list (str * list str)) (pl : str) :
  forall tags t,
    In t (collect_tags table pl tags) -> In t tags \/ In t (map fst table).
Proof.
  induction table as [|[tag keywords] rest IH]; intros tags t;
    cbn [collect_tags map fst].
  - now left.
  - destruct (existsb _ keywords).
    + destruct (2 <=? length (tags ++ [tag])).
      * intros H. apply in_app_or in H as [H | [H | []]];
          [now left | right; now left].
      * intros H. apply IH in H as [H | H]; [|right; now right].
        apply in_app_or in H as [H | [H | []]]; [now left | right; now left].
    + intros H. apply IH in H as [H | H]; [now left | right; now right].
Qed.

Lemma fallback_tags_length (post : str) : length (fallback_tags post) <= 2.
Proof. apply collect_tags_length. simpl. lia. Qed.

Lemma fallback_tags_in_categories (post : str) :
  forallb is_category_tag (map JStr (fallback_tags post)) = true.
Proof.
  apply forallb_forall. intros t Ht.
  apply in_map_iff in Ht as [x [<- Hx]].
  apply collect_tags_origin in Hx as [[] | Hx].
  unfold is_category_tag. apply existsb_exists.
  exists x. split; [exact Hx | now apply str_eqb_eq].
Qed.

Lemma fallback_language_cases (post : str) :
  fallback_language post = lit "French"
  \/ fallback_language post = lit "English".
Proof.
  unfold fallback_language. destruct (3 <? _); [now left | now right].
Qed.

Lemma fallback_line_count_positive (post : str) :
  1 <= fallback_line_count post.
Proof. unfold fallback_line_count. rewrite split_length. lia. Qed.

(** C3 (amended).  Every record of the fallback path, the one of
    [get_fallback_metadata] and the one built by the batch processor's
    handler, satisfies the schema invariant: [line_count >= 0] (it is at
    least 1), [language] is English or French, at most two tags, all from
    the category set. *)
Theorem fallback_path_schema_invariant :
  forall post : str,
    schema_invariant (JObj (get_fallback_metadata post)) = true
    /\ schema_invariant (JObj (handler_metadata post)) = true
    /\ (1 <= fallback_line_count post)
    /\ length (fallback_tags post) <= 2.
Proof.
  intros post. split; [|split; [|split]].
  - unfold schema_invariant, get_fallback_metadata.
    change (dict_get _ (lit "line_count"))
      with (Some (JInt (Z.of_nat (fallback_line_count post)))).
    change (dict_get _ (lit "language"))
      with (Some (JStr (fallback_language post))).
    change (dict_get _ (lit "tags"))
      with (Some (JArr (map JStr (fallback_tags post)))).
    cbv beta iota.
    rewrite fallback_tags_in_categories, andb_true_r.
    rewrite length_map.
    pose proof (fallback_tags_length post) as Hl.
    apply Nat.leb_le in Hl. rewrite Hl, andb_true_r.
    apply andb_true_iff. split; [apply Z.leb_le; lia|].
    destruct (fallback_language_cases post) as [-> | ->]; reflexivity.
  - unfold schema_invariant, handler_metadata.
    change (dict_get _ (lit "line_count"))
      with (Some (JInt (Z.of_nat (length (split newline post))))).
    change (dict_get _ (lit "language")) with (Some (JStr (lit "English"))).
    change (dict_get _ (lit "tags")) with (Some (JArr [])).
    cbv beta iota.
    repeat (apply andb_true_iff; split);
      first [apply Z.leb_le; lia | reflexivity].
  - apply fallback_line_count_positive.
  - apply fallback_tags_length.
Qed.

Lemma french_count_bound (t : str) : french_count t <= 12.
Proof.
  unfold french_count.
  etransitivity; [apply filter_length_le | apply Nat.eq_le_incl; reflexivity].
Qed.

Lemma lower_of_ascii_literal (x : string) :
  forallb is_ascii (lit x) = true -> lower (lit x) = map ascii_lower (lit x).
Proof. apply lower_ascii. Qed.

(** C6 (amended).  The heuristic counts how many of the twelve list
    entries occur at least once as a substring of the lower-cased text
    (an entry counts once however often it occurs, and no word boundary is
    looked for), and answers French exactly when more than three do. *)
Theorem fallback_language_counts_entries :
  forall post : str,
    (fallback_language post = lit "French"
     <-> 3 < length (filter (fun w => contains (lower post) w) french_words))
    /\ (fallback_language post = lit "English"
        <-> length (filter (fun w => contains (lower post) w) french_words) <= 3)
    /\ (forall w, contains (lower post) w = true
                  <-> exists a b, lower post = a ++ w ++ b)
    /\ french_count (lower post) <= 12
    /\ fallback_language (lit "le la les de du des et est une un ce cette")
       = lit "French"
    /\ fallback_language (lit "the quick brown fox") = lit "English".
Proof.
  intros post. repeat split.
  - unfold fallback_language, french_count.
    destruct (3 <? _) eqn:E; [intros _; now apply Nat.ltb_lt | discriminate].
  - unfold fallback_language, french_count. intros H.
    apply Nat.ltb_lt in H. now rewrite H.
  - unfold fallback_language, french_count.
    destruct (3 <? _) eqn:E; [discriminate | intros _; now apply Nat.ltb_ge].
  - unfold fallback_language, french_count. intros H.
    apply Nat.ltb_ge in H. now rewrite H.
  - apply contains_spec.
  - apply contains_spec.
  - apply french_count_bound.
  - unfold fallback_language.
    rewrite lower_of_ascii_literal by reflexivity. reflexivity.
  - unfold fallback_language.
    rewrite lower_of_ascii_literal by reflexivity. reflexivity.
Qed.

End FallbackFacts.

(** C6, the counterexample: four occurrences of a French function word,
    and the heuristic answers English, since a single list entry occurs. *)
Lemma repeated_word_counts_once :
  @spec_french_occurrences reference_runtime (lit "le le le le") = 4
  /\ @spec_language reference_runtime (lit "le le le le") = lit "French"
  /\ @french_count (@lower reference_runtime (lit "le le le le")) = 1
  /\ @fallback_language reference_runtime (lit "le le le le") = lit "English".
Proof. repeat split; vm_compute; reflexivity. Qed.

(* ------------------------------------------------------------------ *)
(** ** The matcher *)

Section ExecSound.
Variable R : Type.

Lemma star_greedy_sound (r : regex) :
  sound_on R r ->
  forall fuel s (k : str -> option R) v,
    star_greedy (exec r) fuel s k = Some v ->
    exists a s', s = a ++ s' /\ Matches (Star r) a /\ k s' = Some v.
Proof.
  intros Hr fuel. induction fuel as [|fuel IH]; intros s k v H; simpl in H.
  - exists [], s. repeat split; [constructor | exact H].
  - destruct (exec r s _) as [v'|] eqn:E.
    + injection H as ->.
      apply Hr in E as (a & s' & -> & Ma & Hk).
      destruct (length s' <? length (a ++ s')); [|discriminate].
      apply IH in Hk as (b & s'' & -> & Mb & Hk).
      exists (a ++ b), s''. rewrite app_assoc.
      repeat split; [now constructor | exact Hk].
    + exists [], s. repeat split; [constructor | exact H].
Qed.

Lemma star_lazy_sound (r : regex) :
  sound_on R r ->
  forall fuel s (k : str -> option R) v,
    star_lazy (exec r) fuel s k = Some v ->
    exists a s', s = a ++ s' /\ Matches (StarLazy r) a /\ k s' = Some v.
Proof.
  intros Hr fuel. induction fuel as [|fuel IH]; intros s k v H; simpl in H.
  - destruct (k s) as [v'|] eqn:E; [|discriminate].
    injection H as ->. exists [], s. repeat split; [constructor | exact E].
  - destruct (k s) as [v'|] eqn:E.
    + injection H as ->. exists [], s. repeat split; [constructor | exact E].
    + apply Hr in H as (a & s' & -> & Ma & Hk).
      destruct (length s' <? length (a ++ s')); [|discriminate].
      apply IH in Hk as (b & s'' & -> & Mb & Hk).
      exists (a ++ b), s''. rewrite app_assoc.
      repeat split; [now constructor | exact Hk].
Qed.

Lemma exec_sound (r : regex) : sound_on R r.
Proof.
  induction r as [|p|r1 IH1 r2 IH2|r IH|r IH|r IH]; intros s k v H;
    cbn [exec] in H.
  - exists [], s. repeat split; [constructor | exact H].
  - destruct s as [|c s]; [discriminate|].
    destruct (p c) eqn:E; [|discriminate].
    exists [c], s. repeat split; [now constructor | exact H].
  - apply IH1 in H as (a & s1 & -> & Ma & H).
    apply IH2 in H as (b & s2 & -> & Mb & H).
    exists (a ++ b), s2. rewrite app_assoc.
    repeat split; [now constructor | exact H].
  - destruct (exec r s k) as [v'|] eqn:E.
    + injection H as ->. apply IH in E as (a & s' & -> & Ma & E).
      exists a, s'. repeat split; [now constructor | exact E].
    + exists [], s. repeat split; [constructor | exact H].
  - now apply star_greedy_sound in H.
  - now apply star_lazy_sound in H.
Qed.

End ExecSound.

Lemma consumed_app (a b : str) : consumed (a ++ b) b = a.
Proof.
  unfold consumed. rewrite length_app.
  replace (length a + length b - length b) with (length a) by lia.
  rewrite firstn_app, Nat.sub_diag, firstn_all. simpl. apply app_nil_r.
Qed.

(** The group of a successful anchored match is in the group's language. *)
Lemma match_group_sound (p : pattern) (s g : str) :
  match_group p s = Some g -> Matches (group1 p) g.
Proof.
  unfold match_group. intros H.
  apply exec_sound in H as (a & s1 & -> & _ & H).
  apply exec_sound in H as (b & s2 & -> & Mb & H).
  apply exec_sound in H as (c & s3 & -> & _ & H).
  injection H as <-. now rewrite consumed_app.
Qed.

Lemma search_sound (p : pattern) (s g : str) :
  search p s = Some g -> Matches (group1 p) g.
Proof.
  induction s as [|c s IH]; simpl.
  - destruct (match_group p []) eqn:E; [|discriminate].
    intros H. injection H as <-. now apply match_group_sound in E.
  - destruct (match_group p (c :: s)) eqn:E.
    + intros H. injection H as <-. now apply match_group_sound in E.
    + exact IH.
Qed.

Lemma match_whole_sound (r : regex) (s m rest : str) :
  match_whole r s = Some (m, rest) -> Matches r m /\ s = m ++ rest.
Proof.
  unfold match_whole. intros H.
  apply exec_sound in H as (a & s' & -> & Ma & H).
  injection H as <- <-. rewrite consumed_app. now split.
Qed.

Lemma findall_from_sound (r : regex) :
  forall fuel s m, In m (findall_from fuel r s) -> Matches r m.
Proof.
  induction fuel as [|fuel IH]; intros s m; simpl; [intros []|].
  assert (Hadv : In m match s with
                      | [] => []
                      | _ :: s' => findall_from fuel r s'
                      end -> Matches r m).
  { destruct s; [intros [] | apply IH]. }
  destruct (match_whole r s) as [[m' rest]|] eqn:E; [|exact Hadv].
  apply match_whole_sound in E as [Hm _].
  intros [<- | H]; [exact Hm|].
  destruct (length rest <? length s); [now apply IH in H | now apply Hadv].
Qed.

Lemma max_by_len_in (best : str) (rest : list str) :
  In (max_by_len best rest) (best :: rest).
Proof.
  revert best. induction rest as [|x rest IH]; intros best; simpl.
  - now left.
  - destruct (length best <? length x).
    + right. apply IH.
    + destruct (IH best) as [H | H]; [now left | right; now right].
Qed.

(* ------------------------------------------------------------------ *)
(** ** The response parser *)

Lemma lstrip_nonspace (c : char) (s : str) :
  isspace c = false -> lstrip (c :: s) = c :: s.
Proof. intros H. simpl. now rewrite H. Qed.

Lemma strip_braced (s : str) : braced s -> strip s = s.
Proof.
  intros [m ->]. unfold strip, rstrip.
  rewrite lstrip_nonspace by reflexivity.
  assert (E : rev (lbrace :: m ++ [rbrace]) = rbrace :: rev (lbrace :: m)).
  { change (lbrace :: m ++ [rbrace]) with ((lbrace :: m) ++ [rbrace]).
    now rewrite rev_app_distr. }
  rewrite E, lstrip_nonspace by reflexivity.
  rewrite <- E. apply rev_involutive.
Qed.

Lemma brace_group_braced (mid : regex) (g : str) :
  Matches (Cat (Chr (N.eqb lbrace)) (Cat mid (Chr (N.eqb rbrace)))) g ->
  braced g.
Proof.
  intros H. inversion H as [| |r1 r2 a b Ha Hb| | | | | |]; subst.
  inversion Ha as [|p c Hc| | | | | | |]; subst.
  inversion Hb as [| |r1 r2 m e Hm He| | | | | |]; subst.
  inversion He as [|p d Hd| | | | | | |]; subst.
  apply N.eqb_eq in Hc, Hd. subst c d. now exists m.
Qed.

Lemma json_pattern_braced (g : str) : Matches json_pattern g -> braced g.
Proof.
  unfold json_pattern. intros H.
  inversion H as [| |r1 r2 a b Ha Hb| | | | | |]; subst.
  inversion Ha as [|p c Hc| | | | | | |]; subst.
  inversion Hb as [| |r1 r2 m1 b1 Hm1 Hb1| | | | | |]; subst.
  inversion Hb1 as [| |r1 r2 m2 e Hm2 He| | | | | |]; subst.
  inversion He as [|p d Hd| | | | | | |]; subst.
  apply N.eqb_eq in Hc, Hd. subst c d.
  exists (m1 ++ m2). cbn [app]. now rewrite <- !app_assoc.
Qed.

Lemma find_split (c : char) (s : str) (i : nat) :
  find c s = Some i -> exists a b, s = a ++ c :: b /\ length a = i.
Proof.
  revert i. induction s as [|d s IH]; intros i; simpl; [discriminate|].
  destruct (d =? c)%N eqn:E.
  - intros H. injection H as <-. apply N.eqb_eq in E as ->.
    now exists [], s.
  - destruct (find c s) as [j|]; [|discriminate].
    intros H. injection H as <-.
    destruct (IH j eq_refl) as (a & b & -> & <-).
    now exists (d :: a), b.
Qed.

Lemma rfind_split (c : char) (s : str) (i : nat) :
  rfind c s = Some i -> exists a b, s = a ++ c :: b /\ length a = i.
Proof.
  revert i. induction s as [|d s IH]; intros i; simpl; [discriminate|].
  destruct (rfind c s) as [j|].
  - intros H. injection H as <-.
    destruct (IH j eq_refl) as (a & b & -> & <-).
    now exists (d :: a), b.
  - destruct (d =? c)%N eqn:E; [|discriminate].
    intros H. injection H as <-. apply N.eqb_eq in E as ->.
    now exists [], s.
Qed.

Lemma slice_braced (s : str) (i j : nat) :
  find lbrace s = Some i -> rfind rbrace s = Some j -> i < j ->
  braced (slice s i (j + 1)).
Proof.
  intros Hf Hr Hlt.
  apply find_split in Hf as (a1 & b1 & E1 & L1).
  apply rfind_split in Hr as (a2 & b2 & E2 & L2).
  unfold slice.
  assert (Hs : skipn i s = skipn i a2 ++ rbrace :: b2).
  { rewrite E2, skipn_app.
    replace (i - length a2) with 0 by lia. reflexivity. }
  assert (Hl : length (skipn i a2) = j - i) by (rewrite length_skipn; lia).
  assert (Hh : skipn i s = lbrace :: b1).
  { rewrite E1, skipn_app, <- L1, skipn_all, Nat.sub_diag. reflexivity. }
  destruct (skipn i a2) as [|x m] eqn:Em; [simpl in Hl; lia|].
  rewrite Hs in Hh. injection Hh as -> _.
  rewrite Hs. exists m.
  replace (j + 1 - i) with (length (lbrace :: m) + 1) by (rewrite Hl; lia).
  change ((lbrace :: m) ++ rbrace :: b2)
    with ((lbrace :: m) ++ [rbrace] ++ b2).
  rewrite app_assoc, firstn_app.
  rewrite length_app. cbn [length].
  replace (length m + 1 + 1 - (S (length m) + 1)) with 0 by lia.
  rewrite firstn_all2 by (rewrite length_app; simpl; lia).
  rewrite Nat.sub_diag. cbn [firstn]. now rewrite app_nil_r.
Qed.

Lemma method1_braced (text r : str) : method1 text = Some r -> braced r.
Proof.
  unfold method1. destruct (search json_block_pattern text) as [g|] eqn:E;
    [|discriminate].
  intros H. injection H as <-.
  apply search_sound in E. apply brace_group_braced in E.
  now rewrite strip_braced.
Qed.

Lemma method2_braced (text r : str) : method2 text = Some r -> braced r.
Proof.
  unfold method2. destruct (findall json_pattern text) as [|m ms] eqn:E;
    [discriminate|].
  intros H. injection H as <-.
  assert (Hin : In (max_by_len m ms) (findall json_pattern text))
    by (rewrite E; apply max_by_len_in).
  apply findall_from_sound, json_pattern_braced in Hin.
  now rewrite strip_braced.
Qed.

Lemma method3_braced (text r : str) : method3 text = Some r -> braced r.
Proof.
  unfold method3.
  destruct (find lbrace text) as [i|] eqn:Ef; [|discriminate].
  destruct (rfind rbrace text) as [j|] eqn:Er; [|discriminate].
  destruct (i <? j) eqn:E; [|discriminate].
  intros H. injection H as <-. apply Nat.ltb_lt in E.
  pose proof (slice_braced text Ef Er E) as Hb.
  now rewrite strip_braced.
Qed.

Lemma extract_json_braced (text r : str) :
  extract_json_from_text text = Some r -> braced r.
Proof.
  unfold extract_json_from_text.
  destruct (method1 text) as [r1|] eqn:E1.
  - intros H. injection H as <-. now apply method1_braced in E1.
  - destruct (method2 text) as [r2|] eqn:E2.
    + intros H. injection H as <-. now apply method2_braced in E2.
    + apply method3_braced.
Qed.

(** C10.  Whatever [extract_json_from_text] returns, other than none, has
    [{] as its first character and [}] as its last. *)
Theorem extract_json_first_last :
  forall text r : str,
    extract_json_from_text text = Some r ->
    hd_error r = Some lbrace
    /\ last r lbrace = rbrace
    /\ exists middle, r = lbrace :: middle ++ [rbrace].
Proof.
  intros text r H. apply extract_json_braced in H as [m ->].
  split; [reflexivity|]. split; [|now exists m].
  change (lbrace :: m ++ [rbrace]) with ((lbrace :: m) ++ [rbrace]).
  apply last_last.
Qed.

Lemma extract_json_first_last_witness :
  extract_json_from_text (lit "see {a {b} c} and {d}") = Some (lit "{a {b} c}")
  /\ hd_error (lit "{a {b} c}") = Some lbrace
  /\ last (lit "{a {b} c}") lbrace = rbrace.
Proof.
  assert (H : extract_json_from_text (lit "see {a {b} c} and {d}")
              = Some (lit "{a {b} c}")) by (vm_compute; reflexivity).
  split; [exact H|].
  destruct (extract_json_first_last _ H) as (H1 & H2 & _).
  split; [exact H1 | exact H2].
Defined.

(* ------------------------------------------------------------------ *)
(** ** The fenced block *)

Section ExecForward.
Variable R : Type.

Lemma exec_lit (w s : str) (k : str -> option R) :
  exec (Lit w) (w ++ s) k = k s.
Proof.
  induction w as [|c w IH]; cbn [Lit exec app]; [reflexivity|].
  now rewrite N.eqb_refl.
Qed.

Lemma exec_chr (p : char -> bool) (c : char) (s : str)
    (k : str -> option R) :
  exec (Chr p) (c :: s) k = if p c then k s else None.
Proof. reflexivity. Qed.

Lemma exec_chr_nil (p : char -> bool) (k : str -> option R) :
  exec (Chr p) [] k = None.
Proof. reflexivity. Qed.

(** A greedy [\s*] in front of something that is not white space and on
    which the rest of the pattern succeeds: the run is consumed whole. *)
Lemma star_space_run (k : str -> option R) (v : R) (rest : str) :
  starts_nonspace rest -> k rest = Some v ->
  forall (ws : str) (fuel : nat),
    forallb isspace ws = true -> length ws <= fuel ->
    star_greedy (exec (Chr isspace)) fuel (ws ++ rest) k = Some v.
Proof.
  intros Hrest Hk. induction ws as [|w ws IH]; intros fuel Hws Hfuel.
  - cbn [app]. destruct fuel as [|fuel]; cbn [star_greedy]; [exact Hk|].
    destruct rest as [|c rest].
    + now rewrite exec_chr_nil.
    + simpl in Hrest. now rewrite exec_chr, Hrest.
  - cbn [forallb] in Hws. apply andb_true_iff in Hws as [Hw Hws].
    destruct fuel as [|fuel]; [simpl in Hfuel; lia|].
    cbn [app star_greedy]. rewrite exec_chr, Hw.
    consumed_something.
    rewrite (IH fuel Hws); [reflexivity | simpl in Hfuel; lia].
Qed.

Lemma exec_star_space (k : str -> option R) (v : R) (ws rest : str) :
  forallb isspace ws = true -> starts_nonspace rest -> k rest = Some v ->
  exec (Star (Chr isspace)) (ws ++ rest) k = Some v.
Proof.
  intros Hws Hrest Hk.
  change (star_greedy (exec (Chr isspace)) (length (ws ++ rest))
            (ws ++ rest) k = Some v).
  apply star_space_run; try assumption.
  rewrite length_app. lia.
Qed.

(** A lazy [.*?] followed by [\}]: it stops at the first closing brace
    after which the rest of the pattern succeeds; with no closing brace
    before it, that is the first one. *)
Lemma star_lazy_to_brace (k : str -> option R) (v : R) (rest : str) :
  k rest = Some v ->
  forall (m : str) (fuel : nat),
    forallb (fun c => negb (c =? rbrace)%N) m = true -> length m <= fuel ->
    star_lazy (exec (Chr any_char)) fuel (m ++ rbrace :: rest)
      (fun s => exec (Chr (N.eqb rbrace)) s k) = Some v.
Proof.
  intros Hk. induction m as [|c m IH]; intros fuel Hm Hfuel.
  - cbn [app]. destruct fuel; cbn [star_lazy];
      rewrite exec_chr, N.eqb_refl, Hk; reflexivity.
  - cbn [forallb] in Hm. apply andb_true_iff in Hm as [Hc Hm].
    destruct fuel as [|fuel]; [simpl in Hfuel; lia|].
    cbn [app star_lazy].
    apply negb_true_iff in Hc. rewrite N.eqb_sym in Hc.
    rewrite !exec_chr, Hc. unfold any_char at 1.
    consumed_something.
    apply (IH fuel Hm). simpl in Hfuel; lia.
Qed.

Lemma exec_brace_group (k : str -> option R) (v : R) (m rest : str) :
  forallb (fun c => negb (c =? rbrace)%N) m = true ->
  k rest = Some v ->
  exec (group1 json_block_pattern) (lbrace :: m ++ rbrace :: rest) k = Some v.
Proof.
  intros Hm Hk.
  change (exec (Chr (N.eqb lbrace)) (lbrace :: m ++ rbrace :: rest)
            (fun s1 => star_lazy (exec (Chr any_char)) (length s1) s1
                         (fun s => exec (Chr (N.eqb rbrace)) s k)) = Some v).
  rewrite exec_chr, N.eqb_refl.
  apply star_lazy_to_brace; try assumption.
  rewrite length_app. lia.
Qed.

End ExecForward.

Lemma space_not_label_start (c : char) :
  isspace c = true -> one_of [106; 74]%N c = false.
Proof.
  intros H. unfold one_of. cbn [existsb].
  destruct (c =? 106)%N eqn:E1.
  - apply N.eqb_eq in E1. subst c. discriminate H.
  - destruct (c =? 74)%N eqn:E2; [|reflexivity].
    apply N.eqb_eq in E2. subst c. discriminate H.
Qed.

Lemma json_label_needs_letter (R : Type) (s : str) (k : str -> option R) :
  match s with
  | c :: _ => one_of [106; 74]%N c = false
  | [] => True
  end ->
  exec json_label_ci s k = None.
Proof.
  destruct s as [|c s]; intros H; [reflexivity|].
  unfold json_label_ci. cbn [exec]. now rewrite H.
Qed.

(** The anchored match on a block whose body holds a single closing brace,
    its last character. *)
Lemma match_group_on_block (label ws1 m ws2 post : str) :
  is_json_label label = true ->
  forallb isspace ws1 = true -> forallb isspace ws2 = true ->
  forallb (fun c => negb (c =? rbrace)%N) m = true ->
  match_group json_block_pattern
    (fenced_block label ws1 (lbrace :: m ++ [rbrace]) ws2 ++ post)
  = Some (lbrace :: m ++ [rbrace]).
Proof.
  intros Hl Hw1 Hw2 Hm.
  set (body := lbrace :: m ++ [rbrace]).
  set (tail := ws2 ++ fence_text ++ post).
  (* what follows the label succeeds on the rest of the block *)
  set (k := fun s1 : str =>
              exec (group1 json_block_pattern) s1 (fun s2 =>
              exec (after json_block_pattern) s2 (fun _ =>
              Some (consumed s1 s2)))).
  assert (Hk : exec (Star (Chr isspace)) (ws1 ++ body ++ tail) k = Some body).
  { apply exec_star_space; [exact Hw1 | reflexivity |].
    unfold k, body. rewrite <- app_comm_cons, <- app_assoc. cbn [app].
    apply exec_brace_group; [exact Hm|].
    cbn [after json_block_pattern exec].
    change (star_greedy (exec (Chr isspace)) (length tail) tail
              (fun s' => exec fence s' (fun _ =>
                 Some (consumed (lbrace :: m ++ rbrace :: tail) tail)))
            = Some (lbrace :: m ++ [rbrace])).
    unfold tail at 2.
    apply star_space_run;
      [reflexivity | | exact Hw2 | unfold tail; rewrite length_app; lia].
    unfold fence. rewrite exec_lit. f_equal.
    change (lbrace :: m ++ rbrace :: tail)
      with ((lbrace :: m) ++ [rbrace] ++ tail).
    rewrite app_assoc. apply consumed_app. }
  unfold match_group, fenced_block.
  cbn [before json_block_pattern].
  rewrite <- !app_assoc.
  change (exec (Cat fence (Cat (Opt json_label_ci) (Star (Chr isspace))))
            (fence_text ++ label ++ ws1 ++ body ++ tail) k = Some body).
  cbn [exec]. unfold fence at 1. rewrite exec_lit.
  change (match exec json_label_ci (label ++ ws1 ++ body ++ tail)
                  (fun s' => exec (Star (Chr isspace)) s' k) with
          | Some v => Some v
          | None => exec (Star (Chr isspace)) (label ++ ws1 ++ body ++ tail) k
          end = Some body).
  destruct label as [|a [|b [|c [|d [|e label]]]]]; try discriminate Hl.
  - cbn [app]. rewrite json_label_needs_letter; [exact Hk|].
    (* the label cannot start on white space or on the brace *)
    destruct ws1 as [|w ws1]; [reflexivity|].
    cbn [forallb] in Hw1. apply andb_true_iff in Hw1 as [Hw _].
    now apply space_not_label_start.
  - cbn [is_json_label] in Hl.
    apply andb_true_iff in Hl as [Hl Hd].
    apply andb_true_iff in Hl as [Hl Hc].
    apply andb_true_iff in Hl as [Ha Hb].
    cbn [app json_label_ci exec]. rewrite Ha, Hb, Hc, Hd.
    cbn [exec] in Hk. now rewrite Hk.
Qed.

Lemma match_group_needs_fence (s : str) :
  startswith s fence_text = false -> match_group json_block_pattern s = None.
Proof.
  unfold match_group, fence_text. cbn [before json_block_pattern].
  destruct s as [|c1 [|c2 [|c3 s]]]; cbn [startswith]; intros H.
  - reflexivity.
  - cbn [exec fence Lit]. now destruct (backtick =? c1)%N.
  - cbn [exec fence Lit].
    destruct (backtick =? c1)%N; [|reflexivity].
    now destruct (backtick =? c2)%N.
  - cbn [exec fence Lit].
    destruct (backtick =? c1)%N; [|reflexivity].
    destruct (backtick =? c2)%N; [|reflexivity].
    destruct (backtick =? c3)%N; [discriminate H | reflexivity].
Qed.

(** A fourth backtick after a fence: neither the label, nor white space,
    nor the opening brace. *)
Lemma match_group_fourth_backtick (s : str) :
  match_group json_block_pattern (fence_text ++ backtick :: s) = None.
Proof.
  unfold match_group. cbn [before json_block_pattern].
  change (exec (Cat fence (Cat (Opt json_label_ci) (Star (Chr isspace)))) ?t ?k)
    with (exec fence t (fun s' =>
            exec (Cat (Opt json_label_ci) (Star (Chr isspace))) s' k)).
  unfold fence. rewrite exec_lit.
  cbn [exec]. rewrite json_label_needs_letter by reflexivity.
  cbn [length star_greedy exec group1 json_block_pattern].
  reflexivity.
Qed.

Lemma search_here (p : pattern) (s g : str) :
  match_group p s = Some g -> search p s = Some g.
Proof. intros H. destruct s; simpl; now rewrite H. Qed.

(** Before the first fence nothing matches, also where backticks of the
    text run into the fence. *)
Lemma search_skips_prefix (pre rest : str) :
  contains pre fence_text = false ->
  search json_block_pattern (pre ++ fence_text ++ rest)
  = search json_block_pattern (fence_text ++ rest).
Proof.
  induction pre as [|c pre IH]; [reflexivity|].
  cbn [contains]. intros H. apply orb_false_iff in H as [Hs Hc].
  cbn [app search]. rewrite (IH Hc).
  assert (E : match_group json_block_pattern (c :: pre ++ fence_text ++ rest)
              = None).
  { destruct (startswith (c :: pre ++ fence_text ++ rest) fence_text) eqn:Es;
      [|now apply match_group_needs_fence].
    destruct pre as [|d1 [|d2 pre]].
    - cbn [app fence_text startswith] in Es.
      apply andb_true_iff in Es as [E1 _]. apply N.eqb_eq in E1. subst c.
      apply (match_group_fourth_backtick (backtick :: rest)).
    - cbn [app fence_text startswith] in Es.
      apply andb_true_iff in Es as [E1 Es]. apply N.eqb_eq in E1. subst c.
      apply andb_true_iff in Es as [E2 _]. apply N.eqb_eq in E2. subst d1.
      apply (match_group_fourth_backtick (backtick :: backtick :: rest)).
    - cbn [app fence_text startswith] in Es, Hs. congruence. }
  now rewrite E.
Qed.

(** C7 (amended).  The three methods are tried in order and the first that
    finds something decides; and when the text in front of a fenced block
    holds no run of three backticks, and the block wraps an object with no
    closing brace before its last character, the parser returns exactly
    that object.  The object of the specification is such an object. *)
Theorem fenced_object_is_returned :
  (forall text : str,
     extract_json_from_text text =
     match method1 text with
     | Some r => Some r
     | None => match method2 text with
               | Some r => Some r
               | None => method3 text
               end
     end)
  /\ (forall pre label ws1 inner ws2 post : str,
        contains pre fence_text = false ->
        is_json_label label = true ->
        forallb isspace ws1 = true -> forallb isspace ws2 = true ->
        forallb (fun c => negb (c =? rbrace)%N) inner = true ->
        extract_json_from_text
          (pre ++ fenced_block label ws1 (lbrace :: inner ++ [rbrace]) ws2
               ++ post)
        = Some (lbrace :: inner ++ [rbrace]))
  /\ (forall pre label ws1 ws2 post : str,
        contains pre fence_text = false ->
        is_json_label label = true ->
        forallb isspace ws1 = true -> forallb isspace ws2 = true ->
        extract_json_from_text
          (pre ++ fenced_block label ws1 example_object ws2 ++ post)
        = Some example_object).
Proof.
  assert (General : forall pre label ws1 inner ws2 post : str,
        contains pre fence_text = false ->
        is_json_label label = true ->
        forallb isspace ws1 = true -> forallb isspace ws2 = true ->
        forallb (fun c => negb (c =? rbrace)%N) inner = true ->
        extract_json_from_text
          (pre ++ fenced_block label ws1 (lbrace :: inner ++ [rbrace]) ws2
               ++ post)
        = Some (lbrace :: inner ++ [rbrace])).
  { intros pre label ws1 inner ws2 post Hpre Hl Hw1 Hw2 Hin.
    pose proof (match_group_on_block label ws1 inner ws2 post Hl Hw1 Hw2 Hin)
      as Hm.
    apply search_here in Hm.
    unfold extract_json_from_text, method1.
    assert (E : pre ++ fenced_block label ws1 (lbrace :: inner ++ [rbrace]) ws2
                    ++ post
                = pre ++ fence_text
                      ++ (label ++ ws1 ++ (lbrace :: inner ++ [rbrace]) ++ ws2
                                ++ fence_text) ++ post).
    { unfold fenced_block. now rewrite <- !app_assoc. }
    rewrite E, (search_skips_prefix _ _ Hpre).
    assert (E' : fence_text
                   ++ (label ++ ws1 ++ (lbrace :: inner ++ [rbrace]) ++ ws2
                             ++ fence_text) ++ post
                 = fenced_block label ws1 (lbrace :: inner ++ [rbrace]) ws2
                     ++ post).
    { unfold fenced_block. now rewrite <- !app_assoc. }
    rewrite E', Hm. f_equal. apply strip_braced. now exists inner. }
  split; [reflexivity|]. split; [exact General|].
  intros pre label ws1 ws2 post Hpre Hl Hw1 Hw2.
  assert (Ho : exists inner,
             example_object = lbrace :: inner ++ [rbrace]
             /\ forallb (fun c => negb (c =? rbrace)%N) inner = true).
  { eexists (removelast (tl example_object)). split; vm_compute; reflexivity. }
  destruct Ho as (inner & -> & Hin).
  now apply General.
Qed.

Lemma fenced_object_is_returned_witness :
  extract_json_from_text
    (lit "Here is the result:
" ++ fenced_block (lit "json") [10%N] example_object [10%N] ++ lit "
Hope it helps.")
  = Some example_object.
Proof.
  apply (proj2 (proj2 fenced_object_is_returned)); vm_compute; reflexivity.
Defined.

(** C7, the counterexample: a text that contains a fenced block wrapping
    the object, after another fenced block; the parser returns the content
    of the first block. *)
Lemma earlier_fence_wins :
  extract_json_from_text
    (fenced_block [] [] (lit "{}") [] ++ lit " "
     ++ fenced_block (lit "json") [10%N] example_object [10%N])
  = Some (lit "{}")
  /\ lit "{}" <> example_object.
Proof. split; [vm_compute; reflexivity | discriminate]. Qed.

(* ------------------------------------------------------------------ *)
(** ** The retry controller *)

Section RetryFacts.
Context {RT : Runtime} {LLM : Completion}.

Lemma sleeps_app (l l' : list event) : sleeps (l ++ l') = sleeps l ++ sleeps l'.
Proof. unfold sleeps. apply flat_map_app. Qed.

Lemma invocations_app (l l' : list event) :
  invocations (l ++ l') = invocations l + invocations l'.
Proof. unfold invocations. now rewrite filter_app, length_app. Qed.

(** One call of the extractor is one call of the completion capability,
    whatever comes of it. *)
Lemma extract_metadata_log (post : str) (st st' : state) (r : result json) :
  extract_metadata post st = (r, st') ->
  log st' = log st ++ [Invoked (render_prompt (truncate_post post))].
Proof.
  unfold extract_metadata.
  destruct (chain_invoke _ (world st)) as [[content|e] w].
  - destruct (extract_json_from_text (strip content)) as [[|c j]|];
      intros H; injection H as _ <-; reflexivity.
  - intros H; injection H as _ <-; reflexivity.
Qed.

Lemma retry_loop_returns
    (extract : str -> state -> result json * state)
    (post : str) (max_retries : nat) :
  forall remaining attempt st,
    exists md st',
      retry_loop extract post max_retries remaining attempt st = (Ok md, st')
      /\ ((exists s0, extract post s0 = (Ok md, st'))
          \/ md = fallback_value post).
Proof.
  induction remaining as [|remaining IH]; intros attempt st; cbn [retry_loop].
  - exists (fallback_value post), st. split; [reflexivity | now right].
  - destruct (extract post st) as [[md|e] st1] eqn:E.
    + exists md, st1. split; [reflexivity | left; now exists st].
    + destruct (is_retryable (lower (exn_str e))).
      * apply IH.
      * exists (fallback_value post), st1. split; [reflexivity | now right].
Qed.

Lemma retry_loop_exhausts
    (extract : str -> state -> result json * state)
    (post : str) (max_retries : nat) :
  (forall s, exists e s', extract post s = (Raise e, s')) ->
  forall remaining attempt st,
    fst (retry_loop extract post max_retries remaining attempt st)
    = Ok (fallback_value post).
Proof.
  intros Hfail. induction remaining as [|remaining IH]; intros attempt st;
    cbn [retry_loop]; [reflexivity|].
  destruct (Hfail st) as (e & st1 & ->).
  destruct (is_retryable (lower (exn_str e))); [apply IH | reflexivity].
Qed.

(** C1.  The retry controller always returns a value and never raises,
    whatever the extractor does at each attempt, returning a value or
    raising any exception: what it returns is either the value of an
    attempt that succeeded or the output of [get_fallback_metadata] on the
    same text; and when no attempt can succeed it is exactly that fallback
    output.  [extract_metadata_with_retry] is the controller over the
    program's extractor. *)
Theorem retry_never_raises :
  forall (extract : str -> state -> result json * state)
         (post : str) (max_retries : nat) (st : state),
    (exists md st',
        retry_controller extract post max_retries st = (Ok md, st')
        /\ ((exists s0, extract post s0 = (Ok md, st'))
            \/ md = JObj (get_fallback_metadata post)))
    /\ ((forall s, exists e s', extract post s = (Raise e, s')) ->
        fst (retry_controller extract post max_retries st)
        = Ok (JObj (get_fallback_metadata post)))
    /\ extract_metadata_with_retry post max_retries st
       = retry_controller extract_metadata post max_retries st.
Proof.
  intros extract post max_retries st. split; [|split].
  - apply retry_loop_returns.
  - intros Hfail. now apply retry_loop_exhausts.
  - reflexivity.
Qed.

Lemma wait_time_formula (a : nat) : wait_time a = (5 * 2 ^ Z.of_nat a)%Z.
Proof. unfold wait_time. lia. Qed.

Lemma retry_loop_backoff (post : str) (max_retries : nat) :
  (forall s, exists e s',
      extract_metadata post s = (Raise e, s')
      /\ is_retryable (lower (exn_str e)) = true) ->
  forall remaining attempt st,
    attempt + remaining = max_retries ->
    exists st',
      retry_loop extract_metadata post max_retries remaining attempt st
      = (Ok (fallback_value post), st')
      /\ invocations (log st') = invocations (log st) + remaining
      /\ sleeps (log st')
         = sleeps (log st)
           ++ map (fun a => (5 * 2 ^ Z.of_nat a)%Z) (seq attempt (remaining - 1)).
Proof.
  intros Hfail. induction remaining as [|remaining IH]; intros attempt st Hn;
    cbn [retry_loop].
  - exists st. split; [reflexivity|]. split; [lia|].
    cbn [seq map]. now rewrite app_nil_r.
  - destruct (Hfail st) as (e & st1 & E & Hr). rewrite E, Hr.
    apply extract_metadata_log in E.
    destruct remaining as [|remaining].
    + (* the last attempt: no sleep *)
      assert (Hlast : (attempt <? max_retries - 1) = false)
        by (apply Nat.ltb_ge; lia).
      rewrite Hlast. cbn [retry_loop].
      exists st1. split; [reflexivity|].
      rewrite E, invocations_app, sleeps_app. cbn. split; [lia|].
      now rewrite app_nil_r.
    + assert (Hmore : (attempt <? max_retries - 1) = true)
        by (apply Nat.ltb_lt; lia).
      rewrite Hmore.
      destruct (IH (S attempt) (sleep (wait_time attempt) st1)) as
        (st' & Hrun & Hinv & Hsl); [lia|].
      exists st'. split; [exact Hrun|].
      rewrite Hinv, Hsl. unfold sleep. cbn [log].
      rewrite !invocations_app, !sleeps_app, E, invocations_app, sleeps_app.
      cbn [invocations sleeps flat_map filter length app].
      split; [lia|].
      rewrite wait_time_formula.
      replace (S (S remaining) - 1) with (S remaining) by lia.
      replace (S remaining - 1) with remaining by lia.
      cbn [seq map]. rewrite <- !app_assoc. reflexivity.
Qed.

(** *** The order of the calls and the sleeps *)

Lemma invocations_invoked (p : str) (l : list event) :
  invocations (Invoked p :: l) = S (invocations l).
Proof. reflexivity. Qed.

Lemma invocations_slept (z : Z) (l : list event) :
  invocations (Slept z :: l) = invocations l.
Proof. reflexivity. Qed.

Lemma calls_with_backoff_more (p : str) (a k : nat) :
  calls_with_backoff p a (S (S k))
  = Invoked p :: Slept (5 * 2 ^ Z.of_nat a)%Z
    :: calls_with_backoff p (S a) (S k).
Proof. reflexivity. Qed.

Lemma calls_with_backoff_invocations (p : str) :
  forall k a, invocations (calls_with_backoff p a k) = k.
Proof.
  induction k as [|k IH]; intros a; [reflexivity|].
  destruct k as [|k]; [reflexivity|].
  rewrite calls_with_backoff_more, invocations_invoked, invocations_slept.
  now rewrite IH.
Qed.

Lemma calls_with_backoff_sleeps (p : str) :
  forall k a,
    sleeps (calls_with_backoff p a k)
    = map (fun a => (5 * 2 ^ Z.of_nat a)%Z) (seq a (k - 1)).
Proof.
  induction k as [|k IH]; intros a; [reflexivity|].
  destruct k as [|k]; [reflexivity|].
  rewrite calls_with_backoff_more.
  change (sleeps (Invoked p :: Slept (5 * 2 ^ Z.of_nat a)%Z
                  :: calls_with_backoff p (S a) (S k)))
    with ((5 * 2 ^ Z.of_nat a)%Z :: sleeps (calls_with_backoff p (S a) (S k))).
  rewrite IH.
  replace (S (S k) - 1) with (S k) by lia.
  replace (S k - 1) with k by lia.
  reflexivity.
Qed.

Lemma calls_with_backoff_ends_on_call (p : str) :
  forall k a, ends_on_call p (calls_with_backoff p a k).
Proof.
  induction k as [|k IH]; intros a; [now left|].
  destruct k as [|k]; [right; now exists []|].
  rewrite calls_with_backoff_more.
  destruct (IH (S a)) as [Hnil | [l Hl]]; [discriminate Hnil|].
  right. exists (Invoked p :: Slept (5 * 2 ^ Z.of_nat a)%Z :: l).
  now rewrite Hl.
Qed.

Lemma calls_with_backoff_between (p : str) :
  forall k a, sleeps_between_calls p a (calls_with_backoff p a k).
Proof.
  induction k as [|k IH]; intros a before seconds rest H.
  - destruct before; discriminate H.
  - destruct k as [|k].
    + destruct before as [|e [|e' before]]; discriminate H.
    + rewrite calls_with_backoff_more in H.
      destruct before as [|e1 [|e2 before]].
      * discriminate H.
      * cbn [app] in H. injection H as H1 H2 H3. subst e1 seconds rest.
        split; [now exists []|]. split; [now eexists|].
        rewrite invocations_invoked. cbn [invocations filter length].
        replace (a + 1 - 1) with a by lia. reflexivity.
      * cbn [app] in H. injection H as H1 H2 H3. subst e1 e2.
        destruct (IH (S a) before seconds rest H3) as ([l ->] & Hrest & ->).
        split; [now exists (Invoked p :: Slept (5 * 2 ^ Z.of_nat a)%Z :: l)|].
        split; [exact Hrest|].
        rewrite invocations_invoked, invocations_slept.
        replace (a + S (invocations (l ++ [Invoked p])) - 1)
          with (S a + invocations (l ++ [Invoked p]) - 1) by lia.
        reflexivity.
Qed.

(** The exact log of a run in which every attempt raises a retryable
    error. *)
Lemma retry_loop_backoff_trace (post : str) (max_retries : nat) :
  (forall s, exists e s',
      extract_metadata post s = (Raise e, s')
      /\ is_retryable (lower (exn_str e)) = true) ->
  forall remaining attempt st,
    attempt + remaining = max_retries ->
    exists st',
      retry_loop extract_metadata post max_retries remaining attempt st
      = (Ok (fallback_value post), st')
      /\ log st'
         = log st ++ calls_with_backoff (prompt_of post) attempt remaining.
Proof.
  intros Hfail. induction remaining as [|remaining IH]; intros attempt st Hn;
    cbn [retry_loop].
  - exists st. split; [reflexivity|]. cbn [calls_with_backoff].
    now rewrite app_nil_r.
  - destruct (Hfail st) as (e & st1 & E & Hr). rewrite E, Hr.
    apply extract_metadata_log in E.
    destruct remaining as [|remaining].
    + assert (Hlast : (attempt <? max_retries - 1) = false)
        by (apply Nat.ltb_ge; lia).
      rewrite Hlast. cbn [retry_loop].
      exists st1. split; [reflexivity | exact E].
    + assert (Hmore : (attempt <? max_retries - 1) = true)
        by (apply Nat.ltb_lt; lia).
      rewrite Hmore.
      destruct (IH (S attempt) (sleep (wait_time attempt) st1)) as
        (st' & Hrun & Hlog); [lia|].
      exists st'. split; [exact Hrun|].
      rewrite Hlog, calls_with_backoff_more. unfold sleep. cbn [log].
      rewrite E, wait_time_formula, <- !app_assoc. reflexivity.
Qed.

(** The exact log of any run: some number [k] of calls, each but the last
    followed by its sleep. *)
Lemma retry_loop_exact (post : str) (max_retries : nat) :
  forall remaining attempt st,
    attempt + remaining = max_retries ->
    exists k,
      k <= remaining
      /\ (remaining = 0 \/ 1 <= k)
      /\ log (snd (retry_loop extract_metadata post max_retries remaining
                     attempt st))
         = log st ++ calls_with_backoff (prompt_of post) attempt k.
Proof.
  induction remaining as [|remaining IH]; intros attempt st Hn;
    cbn [retry_loop].
  - exists 0. cbn [snd calls_with_backoff]. rewrite app_nil_r.
    repeat split; [lia | now left].
  - destruct (extract_metadata post st) as [[md|e] st1] eqn:E;
      apply extract_metadata_log in E.
    + exists 1. cbn [snd]. repeat split; [lia | right; lia | exact E].
    + destruct (is_retryable (lower (exn_str e))).
      * destruct remaining as [|remaining].
        -- assert (Hlast : (attempt <? max_retries - 1) = false)
             by (apply Nat.ltb_ge; lia).
           rewrite Hlast. cbn [retry_loop snd].
           exists 1. repeat split; [lia | right; lia | exact E].
        -- assert (Hmore : (attempt <? max_retries - 1) = true)
             by (apply Nat.ltb_lt; lia).
           rewrite Hmore.
           destruct (IH (S attempt) (sleep (wait_time attempt) st1))
             as (k & Hk & Hpos & Hlog); [lia|].
           destruct Hpos as [Hpos | Hpos]; [discriminate Hpos|].
           destruct k as [|k]; [lia|].
           exists (S (S k)). split; [lia|]. split; [right; lia|].
           rewrite Hlog, calls_with_backoff_more. unfold sleep. cbn [log].
           rewrite E, wait_time_formula, <- !app_assoc. reflexivity.
      * exists 1. cbn [snd]. repeat split; [lia | right; lia | exact E].
Qed.

(** C5.  When every attempt raises a retryable error, the controller makes
    [max_retries] attempts and sleeps [5 * 2^a] seconds after attempt [a],
    the last attempt excepted: the log of the run gains exactly the events
    of [calls_with_backoff], in that order, so every sleep stands between
    two attempts and the run ends on an attempt, with no sleep after it
    (attempt, 5 seconds, attempt, 10 seconds, attempt for the default of
    three attempts).  When the first attempt raises an error that is not
    retryable, the log gains that one attempt and nothing else.  Either way
    the controller returns the fallback metadata.  Whether an error is
    retryable is the substring test of its lower-cased message against the
    five markers. *)
Theorem retry_backoff_and_fast_fail :
  forall (post : str) (st : state),
    (forall msg,
        is_retryable msg = true
        <-> exists marker a b,
              In marker (map lit ["503"; "service unavailable";
                                  "invalid json output"; "expecting value";
                                  "context too big"]%string)
              /\ msg = a ++ marker ++ b)
    /\ (forall max_retries,
          (forall s, exists e s',
              extract_metadata post s = (Raise e, s')
              /\ is_retryable (lower (exn_str e)) = true) ->
          exists st' new,
            extract_metadata_with_retry post max_retries st
            = (Ok (JObj (get_fallback_metadata post)), st')
            /\ log st' = log st ++ new
            /\ new = calls_with_backoff (prompt_of post) 0 max_retries
            /\ sleeps_between_calls (prompt_of post) 0 new
            /\ ends_on_call (prompt_of post) new
            /\ invocations (log st') = invocations (log st) + max_retries
            /\ sleeps (log st')
               = sleeps (log st) ++ backoff_schedule max_retries)
    /\ calls_with_backoff (prompt_of post) 0 default_max_retries
       = [Invoked (prompt_of post); Slept 5; Invoked (prompt_of post);
          Slept 10; Invoked (prompt_of post)]
    /\ backoff_schedule default_max_retries = [5; 10]%Z
    /\ fold_right Z.add 0%Z (backoff_schedule default_max_retries) = 15%Z
    /\ (forall max_retries e st1,
          0 < max_retries ->
          extract_metadata post st = (Raise e, st1) ->
          is_retryable (lower (exn_str e)) = false ->
          extract_metadata_with_retry post max_retries st
          = (Ok (JObj (get_fallback_metadata post)), st1)
          /\ log st1 = log st ++ [Invoked (prompt_of post)]
          /\ invocations (log st1) = invocations (log st) + 1
          /\ sleeps (log st1) = sleeps (log st)).
Proof.
  intros post st. split; [|split; [|split; [|split; [|split]]]].
  - intros msg. unfold is_retryable. rewrite existsb_exists. split.
    + intros (marker & Hin & Hc). apply contains_spec in Hc as (a & b & ->).
      now exists marker, a, b.
    + intros (marker & a & b & Hin & ->). exists marker. split; [exact Hin|].
      apply contains_spec. now exists a, b.
  - intros max_retries Hfail.
    destruct (retry_loop_backoff_trace post Hfail max_retries 0 st eq_refl)
      as (st' & Hrun & Hlog).
    exists st', (calls_with_backoff (prompt_of post) 0 max_retries).
    split; [exact Hrun|]. split; [exact Hlog|]. split; [reflexivity|].
    split; [apply calls_with_backoff_between|].
    split; [apply calls_with_backoff_ends_on_call|].
    rewrite Hlog, invocations_app, sleeps_app.
    rewrite calls_with_backoff_invocations, calls_with_backoff_sleeps.
    split; reflexivity.
  - reflexivity.
  - reflexivity.
  - reflexivity.
  - intros max_retries e st1 Hpos E Hr.
    unfold extract_metadata_with_retry, retry_controller.
    destruct max_retries as [|n]; [lia|].
    cbn [retry_loop]. rewrite E, Hr. split; [reflexivity|].
    apply extract_metadata_log in E. split; [exact E|].
    rewrite E, invocations_app, sleeps_app.
    cbn. split; [lia | now rewrite app_nil_r].
Qed.

End RetryFacts.

Lemma retry_never_raises_witness :
  fst (@extract_metadata_with_retry reference_runtime
         (always_raising unavailable) (lit "hello") 3 (down_on unavailable))
  = Ok (JObj (@get_fallback_metadata reference_runtime (lit "hello"))).
Proof.
  apply (proj1 (proj2 (@retry_never_raises reference_runtime
                         (always_raising unavailable)
                         (@extract_metadata reference_runtime
                            (always_raising unavailable))
                         (lit "hello") 3 (down_on unavailable)))).
  intros s. do 2 eexists. reflexivity.
Defined.

Lemma retry_backoff_and_fast_fail_witness :
  (exists st',
      @extract_metadata_with_retry reference_runtime
        (always_raising unavailable) (lit "hello") 3 (down_on unavailable)
      = (Ok (JObj (@get_fallback_metadata reference_runtime (lit "hello"))), st')
      /\ log st'
         = [Invoked (prompt_of (lit "hello")); Slept 5;
            Invoked (prompt_of (lit "hello")); Slept 10;
            Invoked (prompt_of (lit "hello"))]
      /\ invocations (log st') = 3
      /\ sleeps (log st') = [5; 10]%Z)
  /\ (exists st1,
        @extract_metadata_with_retry reference_runtime
          (always_raising unauthenticated) (lit "hello") 3
          (down_on unauthenticated)
        = (Ok (JObj (@get_fallback_metadata reference_runtime (lit "hello"))),
           st1)
        /\ log st1 = [Invoked (prompt_of (lit "hello"))]
        /\ invocations (log st1) = 1
        /\ sleeps (log st1) = []).
Proof.
  split.
  - destruct (@retry_backoff_and_fast_fail reference_runtime
                (always_raising unavailable) (lit "hello")
                (down_on unavailable)) as (_ & Hretry & Hthree & _ & _ & _).
    destruct (Hretry 3)
      as (st' & new & Hrun & Hlog & Hnew & _ & _ & Hinv & Hsl).
    + intros s. do 2 eexists. split; [reflexivity | vm_compute; reflexivity].
    + exists st'. split; [exact Hrun|]. split; [|split; [exact Hinv | exact Hsl]].
      rewrite Hlog, Hnew. exact Hthree.
  - destruct (@retry_backoff_and_fast_fail reference_runtime
                (always_raising unauthenticated) (lit "hello")
                (down_on unauthenticated)) as (_ & _ & _ & _ & _ & Hfast).
    eexists.
    apply (Hfast 3 unauthenticated);
      [lia | reflexivity | vm_compute; reflexivity].
Defined.

(* ------------------------------------------------------------------ *)
(** ** The single-shot extractor *)

Section ExtractorFacts.
Context {RT : Runtime} {LLM : Completion}.

Lemma braced_head (s : str) : braced s -> hd_error s = Some 123%N.
Proof. now intros [m ->]. Qed.

(** The outcome of one call, read off the answer of the model. *)
Lemma extract_metadata_outcome (post : str) (st : state) :
  fst (extract_metadata post st)
  = match fst (chain_invoke (prompt_of post) (world st)) with
    | Raise e => Raise e
    | Ok content =>
        match extract_json_from_text (strip content) with
        | None => Raise no_json_error
        | Some json_str => json_loads json_str
        end
    end.
Proof.
  unfold extract_metadata, prompt_of.
  destruct (chain_invoke _ (world st)) as [[content|e] w]; cbn [fst];
    [|reflexivity].
  destruct (extract_json_from_text (strip content)) as [[|c j]|] eqn:E;
    try reflexivity.
  apply extract_json_braced in E as [m E]. discriminate E.
Qed.

Lemma extract_metadata_object (post : str) (st st' : state) (md : json) :
  extract_metadata post st = (Ok md, st') -> exists d, md = JObj d.
Proof.
  intros H. pose proof (extract_metadata_outcome post st) as Eq.
  rewrite H in Eq. cbn [fst] in Eq.
  destruct (fst (chain_invoke (prompt_of post) (world st))) as [content|e];
    [|discriminate Eq].
  destruct (extract_json_from_text (strip content)) as [j|] eqn:E;
    [|discriminate Eq].
  symmetry in Eq. apply (json_loads_object _ Eq), braced_head.
  now apply extract_json_braced in E.
Qed.

(** C2 (amended).  The extractor fails exactly when the completion
    capability raises (with that exception), when the response parser
    finds nothing (with the [ValueError] of line 153), or when [json.loads]
    raises on the extracted text (with that exception); a run that does not
    fail returns what [json.loads] decoded, an object, whose fields are not
    checked against the Metadata schema. *)
Theorem extract_metadata_failure_cases :
  forall (post : str) (st : state),
    fst (extract_metadata post st)
    = match fst (chain_invoke (prompt_of post) (world st)) with
      | Raise e => Raise e
      | Ok content =>
          match extract_json_from_text (strip content) with
          | None => Raise no_json_error
          | Some json_str => json_loads json_str
          end
      end
    /\ ((exists e, fst (extract_metadata post st) = Raise e)
        <-> (exists e, fst (chain_invoke (prompt_of post) (world st)) = Raise e)
            \/ (exists content,
                   fst (chain_invoke (prompt_of post) (world st)) = Ok content
                   /\ extract_json_from_text (strip content) = None)
            \/ (exists content json_str e,
                   fst (chain_invoke (prompt_of post) (world st)) = Ok content
                   /\ extract_json_from_text (strip content) = Some json_str
                   /\ json_loads json_str = Raise e))
    /\ (forall v, fst (extract_metadata post st) = Ok v ->
          (exists d, v = JObj d)
          /\ exists content json_str,
               fst (chain_invoke (prompt_of post) (world st)) = Ok content
               /\ extract_json_from_text (strip content) = Some json_str
               /\ json_loads json_str = Ok v).
Proof.
  intros post st.
  pose proof (extract_metadata_outcome post st) as Eq.
  split; [exact Eq|]. split.
  - rewrite Eq. clear Eq.
    destruct (fst (chain_invoke (prompt_of post) (world st))) as [content|e].
    + destruct (extract_json_from_text (strip content)) as [j|] eqn:E.
      * split.
        -- intros [e He]. right; right. now exists content, j, e.
        -- intros [[e He] | [(c & Hc & Hn) | (c & j' & e & Hc & Hj & He)]].
           ++ discriminate He.
           ++ injection Hc as <-. congruence.
           ++ injection Hc as <-. rewrite E in Hj. injection Hj as <-.
              now exists e.
      * split.
        -- intros _. right; left. now exists content.
        -- intros _. now exists no_json_error.
    + split.
      * intros _. left. now exists e.
      * intros _. now exists e.
  - intros v Hv. split.
    + destruct (extract_metadata post st) as [r st'] eqn:E.
      cbn [fst] in Hv. subst r. now apply extract_metadata_object in E.
    + rewrite Eq in Hv.
      destruct (fst (chain_invoke (prompt_of post) (world st)))
        as [content|e]; [|discriminate Hv].
      destruct (extract_json_from_text (strip content)) as [j|] eqn:E;
        [|discriminate Hv].
      now exists content, j.
Qed.

End ExtractorFacts.

Lemma extract_metadata_failure_cases_witness :
  fst (@extract_metadata reference_runtime scripted (lit "hello")
         (run_on [Ok untyped_answer]))
  = Ok untyped_value
  /\ exists d, untyped_value = JObj d.
Proof.
  assert (H : fst (@extract_metadata reference_runtime scripted (lit "hello")
                     (run_on [Ok untyped_answer]))
              = Ok untyped_value) by (vm_compute; reflexivity).
  split; [exact H|].
  destruct (@extract_metadata_failure_cases reference_runtime scripted
              (lit "hello") (run_on [Ok untyped_answer])) as (_ & _ & Hok).
  exact (proj1 (Hok untyped_value H)).
Defined.

(** C2, the counterexample: the model answers with an object that has no
    [language], no [tags] and a string for [line_count]; the extractor
    does not fail and returns it. *)
Lemma untyped_answer_is_returned :
  fst (@extract_metadata reference_runtime scripted (lit "hello")
         (run_on [Ok untyped_answer]))
  = Ok untyped_value
  /\ has_metadata_fields untyped_value = false.
Proof. split; vm_compute; reflexivity. Qed.

(** C3, the counterexample: a record of the model path with a negative
    line count, a third language and three tags outside the category
    set. *)
Lemma model_answer_off_schema :
  fst (@extract_metadata_with_retry reference_runtime scripted (lit "hello")
         3 (run_on [Ok off_schema_answer]))
  = Ok off_schema_value
  /\ schema_invariant off_schema_value = false.
Proof. split; vm_compute; reflexivity. Qed.

(* ------------------------------------------------------------------ *)
(** ** The batch processor *)

Lemma str_eqb_refl (a : str) : str_eqb a a = true.
Proof. now apply str_eqb_eq. Qed.



Lemma dict_keys_set (d : dict) (k k' : str) (v : json) :
  In k' (dict_keys d) -> In k' (dict_keys (dict_set d k v)).
Proof.
  unfold dict_keys.
  induction d as [|[k0 v0] d IH]; cbn [dict_set map fst In]; [intros []|].
  destruct (str_eqb k0 k); cbn [map fst In]; intros [H | H]; auto.
Qed.

Lemma dict_keys_merge (a b : dict) (k : str) :
  In k (dict_keys a) -> In k (dict_keys (dict_merge a b)).
Proof.
  unfold dict_merge. revert a.
  induction b as [|[kb vb] b IH]; intros a H; cbn [fold_left]; [exact H|].
  apply IH. cbn [fst snd]. now apply dict_keys_set.
Qed.

Section BatchFacts.
Context {RT : Runtime} {LLM : Completion}.

Lemma clean_unicode_value_total (v : json) :
  exists t, clean_unicode_value v = Ok t.
Proof.
  destruct v; cbn [clean_unicode_value]; try (now eexists).
  rewrite clean_unicode_value_of. now eexists.
Qed.

Lemma retry_returns_object (post : str) (n : nat) (st : state) :
  exists d st', extract_metadata_with_retry post n st = (Ok (JObj d), st').
Proof.
  destruct (retry_loop_returns extract_metadata post n n 0 st)
    as (md & st' & Hrun & Hsrc).
  destruct Hsrc as [[s0 Hs0] | ->].
  - apply extract_metadata_object in Hs0 as [d ->]. now exists d, st'.
  - exists (get_fallback_metadata post), st'. exact Hrun.
Qed.

(** The fallback of the handler on the empty text is the output of the
    fallback generator on it. *)
Lemma handler_metadata_empty :
  handler_metadata [] = get_fallback_metadata [].
Proof.
  unfold get_fallback_metadata, fallback_language, fallback_tags.
  rewrite (lower_ascii []) by reflexivity. reflexivity.
Qed.

(** What the [try] body does to a mapping. *)
Lemma enrich_mapping (d : dict) (st : state) :
  match dict_get d text_key with
  | None => enrich (JObj d) st = (Raise (Exn KeyError (lit "'text'")), JObj d, st)
  | Some text =>
      exists clean_text metadata st1,
        clean_unicode_value text = Ok clean_text
        /\ extract_metadata_with_retry clean_text default_max_retries st
           = (Ok (JObj metadata), st1)
        /\ enrich (JObj d) st
           = (Ok (dict_merge (dict_set d text_key (JStr clean_text)) metadata),
              JObj (dict_set d text_key (JStr clean_text)), st1)
  end.
Proof.
  cbn [enrich]. destruct (dict_get d text_key) as [text|]; [|reflexivity].
  destruct (clean_unicode_value_total text) as [t Ht]. rewrite Ht.
  destruct (retry_returns_object t default_max_retries st) as (md & st1 & Hr).
  rewrite Hr. now exists t, md, st1.
Qed.

Lemma fallback_record_without_text (d : dict) :
  dict_get d text_key = None ->
  fallback_record (JObj d) = Ok (dict_merge d (get_fallback_metadata [])).
Proof.
  intros H. cbn [fallback_record]. rewrite H. now rewrite handler_metadata_empty.
Qed.

Lemma derived_keeps_fields (post : json) (record : dict) :
  derived_from post record -> keeps_fields post record.
Proof.
  intros (d & -> & H) d' k E Hk. injection E as <-.
  destruct (dict_get d text_key) as [text|].
  - destruct H as (t & md & s & s' & _ & _ & ->).
    now apply dict_keys_merge, dict_keys_set.
  - subst record. now apply dict_keys_merge.
Qed.

(** One turn of the loop on a mapping: one record, derived from the post. *)
Lemma process_step (d : dict) (st : state) :
  exists record st1,
    derived_from (JObj d) record
    /\ forall rest acc,
         process_loop (JObj d :: rest) acc st
         = process_loop rest (acc ++ [record]) st1.
Proof.
  pose proof (enrich_mapping d st) as He.
  destruct (dict_get d text_key) as [text|] eqn:Et.
  - destruct He as (t & md & st1 & Hc & Hr & He).
    exists (dict_merge (dict_set d text_key (JStr t)) md), st1. split.
    + exists d. split; [reflexivity|]. rewrite Et. now exists t, md, st, st1.
    + intros rest acc. cbn [process_loop]. now rewrite He.
  - exists (dict_merge d (get_fallback_metadata [])), st. split.
    + exists d. split; [reflexivity|]. now rewrite Et.
    + intros rest acc. cbn [process_loop]. rewrite He.
      now rewrite (fallback_record_without_text d Et).
Qed.

Lemma process_loop_complete (posts : list json) :
  Forall is_mapping posts ->
  forall acc st,
    exists out st',
      process_loop posts acc st = (Ok (acc ++ out), st')
      /\ Forall2 derived_from posts out.
Proof.
  induction 1 as [|post posts [d ->] _ IH]; intros acc st.
  - exists [], st. cbn [process_loop]. rewrite app_nil_r. now split.
  - destruct (process_step d st) as (record & st1 & Hd & Hstep).
    destruct (IH (acc ++ [record]) st1) as (out & st' & Hrun & Hall).
    exists (record :: out), st'. rewrite Hstep, Hrun, <- app_assoc.
    split; [reflexivity | now constructor].
Qed.

(** C4.  On a collection of N mappings the batch processor returns N
    records, in the order of the input, the record at each position derived
    from the post at that position and keeping all its fields; a post
    without [text] (the failure a mapping can cause) gets the fallback
    record at its position, and the batch goes on. *)
Theorem process_posts_complete_in_order :
  forall (posts : list json) (st : state),
    Forall is_mapping posts ->
    exists out st',
      process_posts posts st = (Ok out, st')
      /\ length out = length posts
      /\ Forall2 derived_from posts out
      /\ Forall2 keeps_fields posts out
      /\ (forall i post,
            nth_error posts i = Some post ->
            exists record,
              nth_error out i = Some record /\ derived_from post record).
Proof.
  intros posts st Hmap.
  destruct (process_loop_complete Hmap [] st) as (out & st' & Hrun & Hall).
  exists out, st'. split; [exact Hrun|].
  split; [symmetry; now apply Forall2_length in Hall|].
  split; [exact Hall|]. split.
  - eapply Forall2_impl; [|exact Hall]. apply derived_keeps_fields.
  - clear Hrun Hmap.
    induction Hall as [|p r ps rs Hpr _ IH]; intros i post Hi.
    + destruct i; discriminate Hi.
    + destruct i as [|i]; cbn [nth_error] in *.
      * injection Hi as <-. now exists r.
      * now apply IH.
Qed.


End BatchFacts.

Lemma process_posts_complete_in_order_witness :
  Forall is_mapping [JObj post_with_text; JObj post_without_text]
  /\ exists out st',
       @process_posts reference_runtime scripted
         [JObj post_with_text; JObj post_without_text]
         (run_on [Ok off_schema_answer])
       = (Ok out, st')
       /\ length out = 2.
Proof.
  assert (Hmap : Forall is_mapping [JObj post_with_text; JObj post_without_text])
    by (repeat constructor; now eexists).
  split; [exact Hmap|].
  destruct (@process_posts_complete_in_order reference_runtime scripted
              _ (run_on [Ok off_schema_answer]) Hmap)
    as (out & st' & Hrun & Hlen & _).
  exists out, st'. split; [exact Hrun | exact Hlen].
Defined.


(* ================================================================== *)
(** * Further properties of the code *)

(** ** The sanitizer, character by character *)

Lemma sub_surrogates_identity (s : str) :
  existsb is_surrogate s = false -> sub_surrogates s = s.
Proof.
  induction s as [|c s IH]; cbn [existsb sub_surrogates map]; [reflexivity|].
  intros H. apply orb_false_iff in H as [Hc Hs].
  rewrite Hc. f_equal. now apply IH.
Qed.

Lemma clean_unicode_sub (s : str) : clean_unicode s = Ok (sub_surrogates s).
Proof.
  rewrite clean_unicode_value_of.
  destruct (existsb is_surrogate s) eqn:Es; [reflexivity|].
  now rewrite sub_surrogates_identity.
Qed.

(** X1.  [clean_unicode] replaces exactly the surrogate code points by U+FFFD:
    the length and every other character stay, a text without surrogates
    comes back as it is (and only such a text does), and the byte-level
    replacement of the last [except] branch is never what is returned. *)
Theorem clean_unicode_replaces_surrogates_only :
  forall s : str,
    clean_unicode s
    = Ok (map (fun c => if is_surrogate c then replacement_character else c) s)
    /\ (clean_unicode s = Ok s <-> existsb is_surrogate s = false)
    /\ (forall r, clean_unicode s = Ok r ->
          length r = length s
          /\ forall i c, nth_error s i = Some c ->
               nth_error r i
               = Some (if is_surrogate c then replacement_character else c)).
Proof.
  intros s. pose proof (clean_unicode_sub s) as E.
  split; [exact E|]. split.
  - split.
    + intros H. rewrite E in H. injection H as H.
      rewrite <- H. apply sub_surrogates_clean.
    + intros H. rewrite E. now rewrite sub_surrogates_identity.
  - intros r Hr. rewrite E in Hr. injection Hr as <-. split.
    + apply length_map.
    + intros i c Hi. unfold sub_surrogates.
      now rewrite nth_error_map, Hi.
Qed.

Lemma clean_unicode_replaces_surrogates_only_witness :
  clean_unicode [72; 55357; 105]%N = Ok [72; 65533; 105]%N
  /\ length [72; 65533; 105]%N = 3
  /\ nth_error [72; 65533; 105]%N 1 = Some 65533%N.
Proof.
  assert (H : clean_unicode [72; 55357; 105]%N = Ok [72; 65533; 105]%N)
    by reflexivity.
  split; [exact H|].
  destruct (proj2 (proj2 (clean_unicode_replaces_surrogates_only
                            [72; 55357; 105]%N)) _ H) as [Hl Hn].
  split; [exact Hl|]. exact (Hn 1 55357%N eq_refl).
Defined.

(* ------------------------------------------------------------------ *)
(** ** Sanitizing nested data *)

(** Induction on a decoded value, through its lists and dicts. *)
Lemma json_nested_ind (P : json -> Prop)
    (Hnull : P JNull) (Hbool : forall b, P (JBool b))
    (Hint : forall z, P (JInt z)) (Hfloat : forall l, P (JFloat l))
    (Hstr : forall s, P (JStr s))
    (Harr : forall l, Forall P l -> P (JArr l))
    (Hobj : forall d, Forall (fun kv => P (snd kv)) d -> P (JObj d)) :
  forall j, P j.
Proof.
  fix IH 1.
  intros [|b|z|l|s|l|d];
    [apply Hnull | apply Hbool | apply Hint | apply Hfloat | apply Hstr | |].
  - apply Harr.
    exact ((fix go (l : list json) : Forall P l :=
              match l with
              | [] => Forall_nil _
              | x :: l' => Forall_cons _ (IH x) (go l')
              end) l).
  - apply Hobj.
    exact ((fix go (d : list (str * json))
              : Forall (fun kv => P (snd kv)) d :=
              match d with
              | [] => Forall_nil _
              | (k, v) :: d' =>
                  Forall_cons (P := fun kv => P (snd kv)) (k, v) (IH v) (go d')
              end) d).
Qed.

Lemma clean_data_dict (d : dict) :
  clean_data_recursively (JObj d) = clean_items d [].
Proof. reflexivity. Qed.

Lemma clean_data_list (l : list json) :
  clean_data_recursively (JArr l) = clean_elements l [].
Proof. reflexivity. Qed.

Lemma surrogate_free_dict (d : dict) :
  surrogate_free (JObj d) = true <-> Forall entry_clean d.
Proof.
  cbn [surrogate_free]. rewrite forallb_forall, Forall_forall.
  split; intros H [k v] Hin; specialize (H (k, v) Hin); cbn in *.
  - apply andb_true_iff in H as [Hk Hv]. apply negb_true_iff in Hk.
    now split.
  - destruct H as [Hk Hv]. cbn in Hk, Hv. now rewrite Hk, Hv.
Qed.

Lemma surrogate_free_list (l : list json) :
  surrogate_free (JArr l) = true <-> Forall (fun x => surrogate_free x = true) l.
Proof. cbn [surrogate_free]. now rewrite forallb_forall, Forall_forall. Qed.

Lemma keys_unique_dict (d : dict) :
  keys_unique (JObj d)
  <-> NoDup (map fst d) /\ Forall (fun kv => keys_unique (snd kv)) d.
Proof.
  cbn [keys_unique].
  assert (E : fold_right (fun (kv : str * json) rest =>
                            (let (_, v) := kv in keys_unique v) /\ rest) True d
              <-> Forall (fun kv => keys_unique (snd kv)) d).
  { induction d as [|[k v] d IH]; cbn [fold_right].
    - split; [constructor | trivial].
    - rewrite IH. split.
      + intros [Hv Hd]. now constructor.
      + intros H. inversion H; subst. now split. }
  now rewrite E.
Qed.

Lemma keys_unique_list (l : list json) :
  keys_unique (JArr l) <-> Forall keys_unique l.
Proof.
  cbn [keys_unique]. induction l as [|x l IH]; cbn [fold_right].
  - split; [constructor | trivial].
  - rewrite IH. split.
    + intros [Hx Hl]. now constructor.
    + intros H. inversion H; subst. now split.
Qed.

Lemma dict_set_keys_inv (d : dict) (k x : str) (v : json) :
  In x (map fst (dict_set d k v)) -> In x (map fst d) \/ x = k.
Proof.
  induction d as [|[k0 v0] d IH]; cbn [dict_set map fst In].
  - intros [<- | []]. now right.
  - destruct (str_eqb k0 k); cbn [map fst In].
    + intros [H | H]; [left; now left | left; now right].
    + intros [H | H]; [left; now left|].
      destruct (IH H) as [H' | H']; [left; now right | now right].
Qed.

Lemma dict_set_nodup (d : dict) (k : str) (v : json) :
  NoDup (map fst d) -> NoDup (map fst (dict_set d k v)).
Proof.
  induction d as [|[k0 v0] d IH]; cbn [dict_set map fst]; intros H.
  - repeat constructor. intros [].
  - inversion H as [|x l Hx Hl]; subst.
    destruct (str_eqb k0 k) eqn:E; cbn [map fst].
    + now constructor.
    + constructor; [|now apply IH].
      intros Hin. apply dict_set_keys_inv in Hin as [Hin | ->];
        [contradiction|].
      rewrite str_eqb_refl in E. discriminate E.
Qed.

Lemma dict_set_forall (P : str * json -> Prop) (d : dict) (k : str) (v : json) :
  (forall k', P (k', v)) -> Forall P d -> Forall P (dict_set d k v).
Proof.
  intros Hv. induction d as [|[k0 v0] d IH]; cbn [dict_set]; intros H.
  - repeat constructor. apply Hv.
  - inversion H; subst.
    destruct (str_eqb k0 k); constructor; auto.
Qed.

Lemma dict_set_entry_clean (d : dict) (k : str) (v : json) :
  existsb is_surrogate k = false -> surrogate_free v = true ->
  Forall entry_clean d -> Forall entry_clean (dict_set d k v).
Proof.
  intros Hk Hv. induction d as [|[k0 v0] d IH]; cbn [dict_set]; intros H.
  - repeat constructor; assumption.
  - inversion H as [|x l [Hx1 Hx2] Hl]; subst. cbn in Hx1, Hx2.
    destruct (str_eqb k0 k) eqn:E; constructor; auto.
    + split; [exact Hx1 | exact Hv].
    + now split.
Qed.

Lemma clean_items_sanitized (d : dict) :
  Forall (fun kv => exists r, clean_data_recursively (snd kv) = Ok r
                              /\ sanitized r) d ->
  forall acc, sanitized (JObj acc) ->
    exists r, clean_items d acc = Ok r /\ sanitized r.
Proof.
  induction 1 as [|[k v] d (r & Hr & Hs1 & Hs2) _ IH]; intros acc Hacc;
    cbn [clean_items].
  - now exists (JObj acc).
  - cbn [snd] in Hr. rewrite clean_unicode_sub, Hr. apply IH.
    destruct Hacc as [Ha1 Ha2].
    apply surrogate_free_dict in Ha1. apply keys_unique_dict in Ha2.
    destruct Ha2 as [Hnd Hku]. split.
    + apply surrogate_free_dict. apply dict_set_entry_clean; auto.
      apply sub_surrogates_clean.
    + apply keys_unique_dict. split; [now apply dict_set_nodup|].
      apply dict_set_forall; auto.
Qed.

Lemma clean_elements_sanitized (l : list json) :
  Forall (fun x => exists r, clean_data_recursively x = Ok r /\ sanitized r) l ->
  forall acc, sanitized (JArr acc) ->
    exists r, clean_elements l acc = Ok r /\ sanitized r.
Proof.
  induction 1 as [|x l (r & Hr & Hs1 & Hs2) _ IH]; intros acc Hacc;
    cbn [clean_elements].
  - now exists (JArr acc).
  - rewrite Hr. apply IH. destruct Hacc as [Ha1 Ha2].
    apply surrogate_free_list in Ha1. apply keys_unique_list in Ha2. split.
    + apply surrogate_free_list, Forall_app. split; [exact Ha1|].
      now repeat constructor.
    + apply keys_unique_list, Forall_app. split; [exact Ha2|].
      now repeat constructor.
Qed.

Lemma clean_data_sanitized (obj : json) :
  exists r, clean_data_recursively obj = Ok r /\ sanitized r.
Proof.
  induction obj as [|b|z|l|s|l IH|d IH] using json_nested_ind;
    try (eexists; split; [reflexivity | now split]).
  - cbn [clean_data_recursively]. rewrite clean_unicode_sub.
    eexists. split; [reflexivity|]. split; [|exact I].
    cbn [surrogate_free]. now rewrite sub_surrogates_clean.
  - rewrite clean_data_list. apply clean_elements_sanitized; [exact IH|].
    now split.
  - rewrite clean_data_dict. apply clean_items_sanitized; [exact IH|].
    split; [reflexivity|]. split; [constructor | exact I].
Qed.

(** Every string of a value free of surrogates has a UTF-8 encoding. *)
Lemma surrogate_free_string (s : str) :
  surrogate_free (JStr s) = true ->
  exists bytes, encode_utf8_strict s = Ok bytes.
Proof.
  cbn [surrogate_free]. intros H. apply negb_true_iff in H.
  now apply encode_succeeds_without_surrogate.
Qed.

(** X2.  [clean_data_recursively] never raises, and no string of what it returns,
    key or value at any depth, holds a surrogate code point: each of them
    has a strict UTF-8 encoding, and each dict has its keys once. *)
Theorem clean_data_recursively_removes_surrogates :
  forall obj : json,
    exists r,
      clean_data_recursively obj = Ok r
      /\ surrogate_free r = true
      /\ keys_unique r
      /\ (forall d, r = JObj d ->
            forall k v, In (k, v) d ->
              (exists bytes, encode_utf8_strict k = Ok bytes)
              /\ surrogate_free v = true)
      /\ (forall l, r = JArr l -> forall x, In x l -> surrogate_free x = true)
      /\ (forall s, r = JStr s -> exists bytes, encode_utf8_strict s = Ok bytes).
Proof.
  intros obj. destruct (clean_data_sanitized obj) as (r & Hr & Hs & Hk).
  exists r. split; [exact Hr|]. split; [exact Hs|]. split; [exact Hk|].
  split; [|split].
  - intros d -> k v Hin. apply surrogate_free_dict in Hs.
    rewrite Forall_forall in Hs. destruct (Hs _ Hin) as [H1 H2].
    split; [now apply encode_succeeds_without_surrogate | exact H2].
  - intros l -> x Hin. apply surrogate_free_list in Hs.
    rewrite Forall_forall in Hs. now apply Hs.
  - intros s ->. now apply surrogate_free_string.
Qed.

Lemma dict_set_fresh (d : dict) (k : str) (v : json) :
  ~ In k (map fst d) -> dict_set d k v = d ++ [(k, v)].
Proof.
  induction d as [|[k0 v0] d IH]; cbn [dict_set map fst In app]; intros H;
    [reflexivity|].
  destruct (str_eqb k0 k) eqn:E.
  - apply str_eqb_eq in E. exfalso. apply H. now left.
  - f_equal. apply IH. intros Hin. apply H. now right.
Qed.

Lemma clean_items_identity (d : dict) :
  Forall (fun kv => clean_data_recursively (snd kv) = Ok (snd kv)) d ->
  Forall (fun kv => existsb is_surrogate (fst kv) = false) d ->
  forall acc, NoDup (map fst (acc ++ d)) ->
    clean_items d acc = Ok (JObj (acc ++ d)).
Proof.
  induction 1 as [|[k v] d Hv _ IH]; intros Hk acc Hnd; cbn [clean_items].
  - now rewrite app_nil_r.
  - inversion Hk as [|x l Hk1 Hk2]; subst. cbn [fst snd] in Hv, Hk1.
    rewrite clean_unicode_sub, (sub_surrogates_identity k Hk1), Hv.
    rewrite dict_set_fresh.
    + rewrite (IH Hk2); rewrite <- app_assoc; [reflexivity | exact Hnd].
    + rewrite map_app in Hnd. cbn [map fst] in Hnd.
      apply NoDup_remove_2 in Hnd. intros Hin. apply Hnd.
      apply in_or_app. now left.
Qed.

Lemma clean_elements_identity (l : list json) :
  Forall (fun x => clean_data_recursively x = Ok x) l ->
  forall acc, clean_elements l acc = Ok (JArr (acc ++ l)).
Proof.
  induction 1 as [|x l Hx _ IH]; intros acc; cbn [clean_elements].
  - now rewrite app_nil_r.
  - rewrite Hx, IH, <- app_assoc. reflexivity.
Qed.

Lemma clean_data_identity (j : json) :
  sanitized j -> clean_data_recursively j = Ok j.
Proof.
  induction j as [|b|z|l|s|l IH|d IH] using json_nested_ind;
    intros [Hs Hk]; try reflexivity.
  - cbn [clean_data_recursively]. rewrite clean_unicode_sub.
    cbn [surrogate_free] in Hs. apply negb_true_iff in Hs.
    now rewrite sub_surrogates_identity.
  - rewrite clean_data_list.
    apply surrogate_free_list in Hs. apply keys_unique_list in Hk.
    rewrite (clean_elements_identity (l := l)); [reflexivity|].
    rewrite Forall_forall in *. intros x Hx. apply (IH x Hx).
    split; [now apply Hs | now apply Hk].
  - rewrite clean_data_dict.
    apply surrogate_free_dict in Hs. apply keys_unique_dict in Hk.
    destruct Hk as [Hnd Hk].
    rewrite (clean_items_identity (d := d)); [reflexivity | | | exact Hnd].
    + rewrite Forall_forall in *. intros kv Hin. apply (IH kv Hin).
      split; [now apply Hs | now apply Hk].
    + rewrite Forall_forall in *. intros kv Hin. now apply Hs.
Qed.

Lemma clean_elements_shape (l : list json) :
  forall acc r,
    clean_elements l acc = Ok r ->
    exists l', r = JArr (acc ++ l')
               /\ Forall2 (fun x x' => clean_data_recursively x = Ok x') l l'.
Proof.
  induction l as [|x l IH]; intros acc r; cbn [clean_elements].
  - intros H. injection H as <-. exists []. now rewrite app_nil_r.
  - destruct (clean_data_recursively x) as [x'|e] eqn:Ex; [|discriminate].
    intros H. apply IH in H as (l' & -> & Hall).
    exists (x' :: l'). rewrite <- app_assoc. split; [reflexivity|].
    now constructor.
Qed.

(** X3.  [clean_data_recursively] is idempotent; it returns as it is a value
    that holds no surrogate and whose dicts have their keys once; and it
    maps a list to a list of the same length, element by element. *)
Theorem clean_data_recursively_idempotent :
  (forall obj r : json,
      clean_data_recursively obj = Ok r -> clean_data_recursively r = Ok r)
  /\ (forall obj : json,
        surrogate_free obj = true -> keys_unique obj ->
        clean_data_recursively obj = Ok obj)
  /\ (forall (l : list json) (r : json),
        clean_data_recursively (JArr l) = Ok r ->
        exists l', r = JArr l'
                   /\ length l' = length l
                   /\ Forall2 (fun x x' => clean_data_recursively x = Ok x')
                        l l').
Proof.
  split; [|split].
  - intros obj r H. apply clean_data_identity.
    destruct (clean_data_sanitized obj) as (r' & Hr & Hs). congruence.
  - intros obj Hs Hk. apply clean_data_identity. now split.
  - intros l r H. rewrite clean_data_list in H.
    apply clean_elements_shape in H as (l' & -> & Hall).
    exists l'. split; [reflexivity|].
    split; [symmetry; now apply Forall2_length in Hall | exact Hall].
Qed.

Lemma clean_data_recursively_idempotent_witness :
  clean_data_recursively
    (JArr [JObj [([116; 55357]%N, JStr [55357; 33]%N); (lit "id", JInt 7)]])
  = Ok (JArr [JObj [([116; 65533]%N, JStr [65533; 33]%N); (lit "id", JInt 7)]])
  /\ clean_data_recursively
       (JArr [JObj [([116; 65533]%N, JStr [65533; 33]%N); (lit "id", JInt 7)]])
     = Ok (JArr [JObj [([116; 65533]%N, JStr [65533; 33]%N);
                       (lit "id", JInt 7)]]).
Proof.
  assert (H : clean_data_recursively
                (JArr [JObj [([116; 55357]%N, JStr [55357; 33]%N);
                             (lit "id", JInt 7)]])
              = Ok (JArr [JObj [([116; 65533]%N, JStr [65533; 33]%N);
                                (lit "id", JInt 7)]]))
    by (vm_compute; reflexivity).
  split; [exact H|].
  exact (proj1 clean_data_recursively_idempotent _ _ H).
Defined.

(* ------------------------------------------------------------------ *)
(** ** The fallback generator, field by field *)

Section FallbackFields.
Context {RT : Runtime}.

Lemma collect_tags_firstn (pl : str) (table : list (str * list str)) :
  forall tags,
    length tags < 2 ->
    collect_tags table pl tags
    = firstn 2 (tags ++ map fst
                  (filter (fun entry =>
                             existsb (fun keyword => contains pl keyword)
                                     (snd entry)) table)).
Proof.
  induction table as [|[tag keywords] table IH]; intros tags Hlen;
    cbn [collect_tags filter snd].
  - rewrite app_nil_r. symmetry. apply firstn_all2. lia.
  - destruct (existsb _ keywords); [|now apply IH].
    cbn [map fst].
    destruct tags as [|t [|t' tags]]; [| |simpl in Hlen; lia].
    + cbn [app length Nat.leb]. rewrite (IH [tag]) by (simpl; lia).
      reflexivity.
    + reflexivity.
Qed.

Lemma nodup_map_filter (A B : Type) (f : A -> B) (g : A -> bool) (l : list A) :
  NoDup (map f l) -> NoDup (map f (filter g l)).
Proof.
  induction l as [|x l IH]; cbn [map filter]; intros H; [constructor|].
  inversion H as [|y m Hy Hm]; subst.
  destruct (g x); cbn [map]; [|now apply IH].
  constructor; [|now apply IH].
  intros Hin. apply Hy. apply in_map_iff in Hin as (z & Hz & Hin).
  apply filter_In in Hin as [Hin _]. apply in_map_iff. now exists z.
Qed.

Lemma nodup_firstn (A : Type) (n : nat) (l : list A) :
  NoDup l -> NoDup (firstn n l).
Proof.
  revert l. induction n as [|n IH]; intros [|x l] H; cbn [firstn];
    try constructor.
  - inversion H; subst. intros Hin. apply H2.
    rewrite <- (firstn_skipn n l). apply in_or_app. now left.
  - inversion H; subst. now apply IH.
Qed.

Lemma categories_distinct : NoDup (map fst linkedin_keywords).
Proof.
  cbn [map fst linkedin_keywords].
  repeat (constructor; [cbn [In]; intuition discriminate|]).
  constructor.
Qed.

(** X4.  The tags of the fallback are the first two categories, in the order of
    the table, of which a trigger word occurs in the lower-cased text: they
    are distinct, each has a trigger word in the text, and there is none
    exactly when no category matches. *)
Theorem fallback_tags_first_two_matches :
  forall post : str,
    fallback_tags post = firstn 2 (matching_categories (lower post))
    /\ NoDup (fallback_tags post)
    /\ (forall tag,
          In tag (fallback_tags post) ->
          exists keywords keyword a b,
            In (tag, keywords) linkedin_keywords
            /\ In keyword keywords
            /\ lower post = a ++ keyword ++ b)
    /\ (fallback_tags post = [] <-> matching_categories (lower post) = []).
Proof.
  intros post.
  assert (E : fallback_tags post = firstn 2 (matching_categories (lower post))).
  { unfold fallback_tags. rewrite collect_tags_firstn by (simpl; lia).
    reflexivity. }
  split; [exact E|]. split; [|split].
  - rewrite E. apply nodup_firstn. unfold matching_categories.
    apply nodup_map_filter, categories_distinct.
  - intros tag Hin. rewrite E in Hin.
    assert (Hin' : In tag (matching_categories (lower post))).
    { rewrite <- (firstn_skipn 2 (matching_categories (lower post))).
      apply in_or_app. now left. }
    unfold matching_categories in Hin'.
    apply in_map_iff in Hin' as ([tag' keywords] & <- & Hf).
    apply filter_In in Hf as [Htab Hex]. cbn [snd fst] in *.
    apply existsb_exists in Hex as (keyword & Hkw & Hc).
    apply contains_spec in Hc as (a & b & Hc).
    now exists keywords, keyword, a, b.
  - rewrite E. destruct (matching_categories (lower post)) as [|c [|c' l]];
      cbn [firstn]; split; intros H; try reflexivity; discriminate H.
Qed.

Lemma count_newlines_app (a b : str) :
  count_occ N.eq_dec (a ++ newline :: b) newline
  = S (count_occ N.eq_dec a newline + count_occ N.eq_dec b newline).
Proof.
  rewrite count_occ_app. cbn [count_occ].
  match goal with
  | |- context [N.eq_dec ?x ?y] => destruct (N.eq_dec x y) as [_|Hn]
  end; [|contradiction].
  apply Nat.add_succ_r.
Qed.

(** X5.  The line count of the fallback is the number of newline characters plus
    one: one for a text without newline, the empty text included, and the
    sum of the counts of the two parts for a text cut at a newline.  The
    handler of the batch loop counts the same way. *)
Theorem fallback_line_count_newlines :
  forall post : str,
    dict_get (get_fallback_metadata post) (lit "line_count")
    = Some (JInt (Z.of_nat (1 + count_occ N.eq_dec post newline)))
    /\ dict_get (handler_metadata post) (lit "line_count")
       = Some (JInt (Z.of_nat (1 + count_occ N.eq_dec post newline)))
    /\ (forall a b, post = a ++ newline :: b ->
          fallback_line_count post
          = fallback_line_count a + fallback_line_count b).
Proof.
  intros post. split; [|split].
  - unfold get_fallback_metadata, fallback_line_count.
    rewrite split_length. reflexivity.
  - unfold handler_metadata. rewrite split_length. reflexivity.
  - intros a b ->. unfold fallback_line_count.
    rewrite !split_length, count_newlines_app. lia.
Qed.


End FallbackFields.

Lemma fallback_tags_first_two_matches_witness :
  exists keywords keyword a b,
    In (lit "career", keywords) linkedin_keywords
    /\ In keyword keywords
    /\ @lower reference_runtime (lit "New JOB at a Startup, great team")
       = a ++ keyword ++ b.
Proof.
  apply (proj1 (proj2 (proj2 (@fallback_tags_first_two_matches
                                reference_runtime
                                (lit "New JOB at a Startup, great team"))))).
  vm_compute. now left.
Defined.

Lemma fallback_line_count_newlines_witness :
  fallback_line_count (lit "one
two
three")
  = fallback_line_count (lit "one") + fallback_line_count (lit "two
three").
Proof.
  apply (proj2 (proj2 (@fallback_line_count_newlines reference_runtime
                         (lit "one
two
three")))).
  reflexivity.
Defined.


(* ------------------------------------------------------------------ *)
(** ** The size of a request *)

Lemma ellipsis_length : length (lit "...") = 3.
Proof. reflexivity. Qed.

Lemma truncate_post_short (post : str) :
  length post <= max_post_length -> truncate_post post = post.
Proof.
  intros H. unfold truncate_post.
  destruct (Nat.ltb_spec max_post_length (length post)); [lia | reflexivity].
Qed.

Lemma truncate_post_long (post : str) :
  max_post_length < length post ->
  truncate_post post = firstn max_post_length post ++ lit "...".
Proof.
  intros H. unfold truncate_post.
  destruct (Nat.ltb_spec max_post_length (length post)); [reflexivity | lia].
Qed.

Lemma truncate_post_length (post : str) :
  length (truncate_post post) <= max_post_length + 3.
Proof.
  destruct (Nat.le_gt_cases (length post) max_post_length) as [H | H].
  - rewrite truncate_post_short by exact H. lia.
  - rewrite truncate_post_long by exact H.
    rewrite length_app, length_firstn, ellipsis_length. lia.
Qed.

Lemma truncate_post_prefix (post : str) :
  firstn max_post_length (truncate_post post) = firstn max_post_length post.
Proof.
  destruct (Nat.le_gt_cases (length post) max_post_length) as [H | H].
  - now rewrite truncate_post_short.
  - rewrite truncate_post_long by exact H.
    rewrite firstn_app, firstn_firstn, Nat.min_id, length_firstn.
    replace (max_post_length - Nat.min max_post_length (length post)) with 0
      by lia.
    cbn [firstn]. apply app_nil_r.
Qed.

Section RequestSize.
Context {RT : Runtime} {LLM : Completion}.

(** X7.  The extractor bounds what it sends: the post goes into the prompt cut
    to its first 1000 characters, followed by three dots when something was
    cut, so that a prompt never exceeds 1308 characters; a post of at most
    1000 characters goes in whole; cutting twice is cutting once; and each
    call of the extractor sends exactly one such prompt, whatever the
    outcome. *)
Theorem request_size_is_bounded :
  forall post : str,
    length (truncate_post post) <= 1003
    /\ (length post <= 1000 -> truncate_post post = post)
    /\ (1000 < length post ->
        truncate_post post = firstn 1000 post ++ lit "...")
    /\ truncate_post (truncate_post post) = truncate_post post
    /\ prompt_of post = template_head ++ truncate_post post ++ template_tail
    /\ length (prompt_of post) <= 1308
    /\ (forall (st st' : state) (r : result json),
          extract_metadata post st = (r, st') ->
          log st' = log st ++ [Invoked (prompt_of post)]).
Proof.
  intros post.
  pose proof (truncate_post_length post) as Hlen.
  change max_post_length with 1000 in Hlen.
  split; [lia|].
  split; [apply truncate_post_short|].
  split; [apply truncate_post_long|].
  split; [|split; [reflexivity|split]].
  - destruct (Nat.le_gt_cases (length post) max_post_length) as [H | H].
    + rewrite (truncate_post_short post H). now apply truncate_post_short.
    + rewrite (truncate_post_long (truncate_post post)).
      * now rewrite truncate_post_prefix, <- truncate_post_long.
      * rewrite truncate_post_long by exact H.
        rewrite length_app, length_firstn, ellipsis_length. lia.
  - unfold prompt_of, render_prompt. rewrite !length_app.
    change (length template_head) with 294.
    change (length template_tail) with 11. lia.
  - intros st st' r H. now apply extract_metadata_log in H.
Qed.

End RequestSize.

Lemma request_size_is_bounded_witness :
  truncate_post (lit "short post") = lit "short post"
  /\ log (snd (@extract_metadata reference_runtime scripted (lit "short post")
                 (run_on [Ok untyped_answer])))
     = [Invoked (prompt_of (lit "short post"))].
Proof.
  destruct (@request_size_is_bounded reference_runtime scripted
              (lit "short post")) as (_ & Hshort & _ & _ & _ & _ & Hlog).
  split.
  - apply Hshort. vm_compute. lia.
  - apply (Hlog (run_on [Ok untyped_answer]) _
             (fst (@extract_metadata reference_runtime scripted
                     (lit "short post") (run_on [Ok untyped_answer])))).
    apply surjective_pairing.
Defined.

(* ------------------------------------------------------------------ *)
(** ** What a run of the retry controller costs *)

Section RetryCost.
Context {RT : Runtime} {LLM : Completion}.

Lemma seq_shift_map (f : nat -> Z) (a k : nat) :
  1 <= k -> f a :: map f (seq (S a) (k - 1)) = map f (seq a k).
Proof.
  intros H. destruct k as [|k]; [lia|].
  cbn [seq map]. now replace (S k - 1) with k by lia.
Qed.

Lemma retry_loop_trace (post : str) (max_retries : nat) :
  forall remaining attempt st,
    attempt + remaining = max_retries ->
    exists k new,
      k <= remaining
      /\ (remaining = 0 \/ 1 <= k)
      /\ log (snd (retry_loop extract_metadata post max_retries remaining
                     attempt st))
         = log st ++ new
      /\ invocations new = k
      /\ sleeps new
         = map (fun a => (5 * 2 ^ Z.of_nat a)%Z) (seq attempt (k - 1)).
Proof.
  induction remaining as [|remaining IH]; intros attempt st Hn;
    cbn [retry_loop].
  - exists 0, []. cbn [snd]. rewrite app_nil_r.
    repeat split; [lia | now left].
  - destruct (extract_metadata post st) as [[md|e] st1] eqn:E;
      apply extract_metadata_log in E.
    + exists 1, [Invoked (prompt_of post)]. cbn [snd].
      repeat split; [lia | right; lia | exact E].
    + destruct (is_retryable (lower (exn_str e))).
      * destruct remaining as [|remaining].
        -- assert (Hlast : (attempt <? max_retries - 1) = false)
             by (apply Nat.ltb_ge; lia).
           rewrite Hlast. cbn [retry_loop snd].
           exists 1, [Invoked (prompt_of post)].
           repeat split; [lia | right; lia | exact E].
        -- assert (Hmore : (attempt <? max_retries - 1) = true)
             by (apply Nat.ltb_lt; lia).
           rewrite Hmore.
           destruct (IH (S attempt) (sleep (wait_time attempt) st1))
             as (k & new & Hk & Hpos & Hlog & Hinv & Hsl); [lia|].
           destruct Hpos as [Hpos | Hpos]; [discriminate Hpos|].
           exists (S k),
             ([Invoked (prompt_of post); Slept (wait_time attempt)] ++ new).
           split; [lia|]. split; [right; lia|]. split.
           ++ rewrite Hlog. unfold sleep. cbn [log]. rewrite E.
              now rewrite <- !app_assoc.
           ++ rewrite invocations_app, sleeps_app, Hinv, Hsl.
              split; [reflexivity|].
              cbn [sleeps flat_map app]. rewrite wait_time_formula.
              replace (S k - 1) with k by lia.
              now apply (seq_shift_map (fun a => (5 * 2 ^ Z.of_nat a)%Z)).
      * exists 1, [Invoked (prompt_of post)]. cbn [snd].
        repeat split; [lia | right; lia | exact E].
Qed.

(** X8.  Whatever the model does, a run of the retry controller makes between
    one and [max_retries] completion calls (none when [max_retries] is 0),
    and its log gains exactly these calls with the backoff between them, in
    this order: call [a], then, only when call [a+1] follows, a sleep of
    [5 * 2^a] seconds.  So every sleep has a call right before it and a call
    right after it, and the run ends on a call, never on a sleep.  With
    [max_retries] 0 it answers the fallback at once. *)
Theorem retry_cost_is_bounded :
  forall (post : str) (max_retries : nat) (st : state),
    (exists k new,
        k <= max_retries
        /\ (max_retries = 0 \/ 1 <= k)
        /\ log (snd (extract_metadata_with_retry post max_retries st))
           = log st ++ new
        /\ new = calls_with_backoff (prompt_of post) 0 k
        /\ sleeps_between_calls (prompt_of post) 0 new
        /\ ends_on_call (prompt_of post) new
        /\ invocations new = k
        /\ sleeps new = map (fun a => (5 * 2 ^ Z.of_nat a)%Z) (seq 0 (k - 1))
        /\ length (sleeps new) <= max_retries - 1)
    /\ extract_metadata_with_retry post 0 st
       = (Ok (JObj (get_fallback_metadata post)), st).
Proof.
  intros post max_retries st. split; [|reflexivity].
  destruct (retry_loop_exact post max_retries 0 st eq_refl)
    as (k & Hk & Hpos & Hlog).
  exists k, (calls_with_backoff (prompt_of post) 0 k).
  split; [exact Hk|]. split; [exact Hpos|]. split; [exact Hlog|].
  split; [reflexivity|].
  split; [apply calls_with_backoff_between|].
  split; [apply calls_with_backoff_ends_on_call|].
  split; [apply calls_with_backoff_invocations|].
  rewrite calls_with_backoff_sleeps. split; [reflexivity|].
  rewrite length_map, length_seq. lia.
Qed.

End RetryCost.

Section Transient.
Context {RT : Runtime}.





End Transient.


(* ------------------------------------------------------------------ *)
(** ** What a batch costs, and what stops it *)

Section BatchCost.
Context {RT : Runtime} {LLM : Completion}.

Lemma modest_nil : modest [].
Proof. repeat split; cbn; [lia | lia | constructor]. Qed.

Lemma retry_default_modest (post : str) (st : state) :
  exists new,
    log (snd (extract_metadata_with_retry post default_max_retries st))
    = log st ++ new
    /\ modest new.
Proof.
  destruct (retry_loop_trace post default_max_retries 0 st eq_refl)
    as (k & new & Hk & _ & Hlog & Hinv & Hsl).
  exists new. split; [exact Hlog|]. unfold modest. rewrite Hinv, Hsl.
  unfold default_max_retries in Hk.
  destruct k as [|[|[|[|k]]]]; [| | | |lia]; cbn;
    (split; [lia|]); (split; [lia|]);
    repeat (apply Forall_cons; [first [now left | now right]|]);
    apply Forall_nil.
Qed.

Lemma enrich_trace (post : json) (st : state) :
  exists new, log (snd (enrich post st)) = log st ++ new /\ modest new.
Proof.
  assert (Hnone : exists new, log st = log st ++ new /\ modest new).
  { exists []. split; [now rewrite app_nil_r | apply modest_nil]. }
  destruct post as [|b|z|l|s|l|d]; cbn [enrich snd]; try exact Hnone.
  destruct (dict_get d text_key) as [text|]; [|exact Hnone].
  destruct (clean_unicode_value text) as [t|e]; [|exact Hnone].
  destruct (retry_default_modest t st) as (new & Hlog & Hm).
  exists new. split; [|exact Hm].
  destruct (extract_metadata_with_retry t default_max_retries st)
    as [[[| | | | | |md]|e] st1]; exact Hlog.
Qed.

Lemma process_loop_state (posts : list json) :
  forall acc st,
    exists new,
      log (snd (process_loop posts acc st)) = log st ++ new
      /\ invocations new <= 3 * length posts
      /\ length (sleeps new) <= 2 * length posts
      /\ Forall (fun z => z = 5%Z \/ z = 10%Z) (sleeps new).
Proof.
  induction posts as [|post posts IH]; intros acc st; cbn [process_loop].
  - exists []. cbn. rewrite app_nil_r. repeat split; try lia. constructor.
  - destruct (enrich_trace post st) as (new1 & Hlog1 & Hi1 & Hs1 & Hf1).
    destruct (enrich post st) as [[r post'] st1]. cbn [snd] in Hlog1.
    assert (Hstop : exists new,
               log st1 = log st ++ new
               /\ invocations new <= 3 * length (post :: posts)
               /\ length (sleeps new) <= 2 * length (post :: posts)
               /\ Forall (fun z => z = 5%Z \/ z = 10%Z) (sleeps new)).
    { exists new1. cbn [length]. repeat split; try assumption; lia. }
    assert (Hgo : forall acc',
               exists new,
                 log (snd (process_loop posts acc' st1)) = log st ++ new
                 /\ invocations new <= 3 * length (post :: posts)
                 /\ length (sleeps new) <= 2 * length (post :: posts)
                 /\ Forall (fun z => z = 5%Z \/ z = 10%Z) (sleeps new)).
    { intros acc'. destruct (IH acc' st1) as (new2 & Hlog2 & Hi2 & Hs2 & Hf2).
      exists (new1 ++ new2). rewrite Hlog2, Hlog1, <- app_assoc.
      rewrite invocations_app, sleeps_app, length_app. cbn [length].
      repeat split; try lia. apply Forall_app. now split. }
    destruct r as [record|e]; [apply Hgo|].
    destruct (fallback_record post') as [record|e']; [apply Hgo|].
    exact Hstop.
Qed.

Lemma process_loop_without_text (posts : list json) :
  Forall (fun post => exists d, post = JObj d /\ dict_get d text_key = None)
         posts ->
  forall acc st, snd (process_loop posts acc st) = st.
Proof.
  induction 1 as [|post posts (d & -> & Hd) _ IH]; intros acc st;
    cbn [process_loop]; [reflexivity|].
  pose proof (enrich_mapping d st) as He. rewrite Hd in He. rewrite He.
  rewrite (fallback_record_without_text d Hd). apply IH.
Qed.

(** X10.  A batch of N posts costs at most 3N completion calls and 2N sleeps,
    each of 5 or 10 seconds, whatever the posts are and whatever the model
    does; posts without [text] cost nothing at all. *)
Theorem batch_cost_is_bounded :
  forall (posts : list json) (st : state),
    (exists new,
        log (snd (process_posts posts st)) = log st ++ new
        /\ invocations new <= 3 * length posts
        /\ length (sleeps new) <= 2 * length posts
        /\ Forall (fun z => z = 5%Z \/ z = 10%Z) (sleeps new))
    /\ (Forall (fun post => exists d,
                   post = JObj d /\ dict_get d text_key = None) posts ->
        snd (process_posts posts st) = st).
Proof.
  intros posts st. split.
  - apply process_loop_state.
  - intros H. now apply process_loop_without_text.
Qed.

(** X11.  A record that is not a mapping stops the batch: the body raises on
    [post['text']], the handler raises in its turn on [post.get], and
    [process_posts] ends with that [AttributeError] instead of returning
    the records built so far. *)
Theorem non_mapping_aborts_batch :
  forall (before : list json) (post : json) (after : list json) (st : state),
    Forall is_mapping before ->
    ~ is_mapping post ->
    exists e st',
      process_posts (before ++ post :: after) st = (Raise e, st')
      /\ exn_kind e = AttributeError.
Proof.
  intros before post after st Hb Hp. unfold process_posts.
  generalize (@nil dict) as acc. revert st.
  induction Hb as [|p before [d ->] _ IH]; intros st acc; cbn [app].
  - cbn [process_loop].
    destruct post as [|b|z|l|s|l|d];
      try (cbn [enrich fallback_record]; now do 2 eexists).
    exfalso. apply Hp. now exists d.
  - destruct (process_step d st) as (record & st1 & _ & Hstep).
    rewrite Hstep. apply IH.
Qed.

End BatchCost.

Lemma batch_cost_is_bounded_witness :
  snd (@process_posts reference_runtime scripted
         [JObj post_without_text; JObj post_without_text]
         (run_on [Ok off_schema_answer]))
  = run_on [Ok off_schema_answer].
Proof.
  apply (proj2 (@batch_cost_is_bounded reference_runtime scripted
                  [JObj post_without_text; JObj post_without_text]
                  (run_on [Ok off_schema_answer]))).
  repeat constructor; exists post_without_text; split; reflexivity.
Defined.

Lemma non_mapping_aborts_batch_witness :
  exists e st',
    @process_posts reference_runtime scripted
      [JObj post_without_text; JStr (lit "not a record"); JObj post_with_text]
      (run_on [])
    = (Raise e, st')
    /\ exn_kind e = AttributeError.
Proof.
  apply (@non_mapping_aborts_batch reference_runtime scripted
           [JObj post_without_text] (JStr (lit "not a record"))
           [JObj post_with_text] (run_on [])).
  - repeat constructor. now exists post_without_text.
  - intros [d Hd]. discriminate Hd.
Defined.

(* ------------------------------------------------------------------ *)
(** ** Merging metadata over a post *)




Section MergeFacts.
Context {RT : Runtime} {LLM : Completion}.


End MergeFacts.


(* ------------------------------------------------------------------ *)
(** ** What the response parser returns is in the text *)

Lemma part_of_tail (r s : str) (c : char) : part_of r s -> part_of r (c :: s).
Proof. intros (a & b & ->). now exists (c :: a), b. Qed.

Lemma match_group_part (p : pattern) (s g : str) :
  match_group p s = Some g -> part_of g s.
Proof.
  unfold match_group. intros H.
  apply exec_sound in H as (a & s1 & -> & _ & H).
  apply exec_sound in H as (b & s2 & -> & _ & H).
  apply exec_sound in H as (c & s3 & -> & _ & H).
  injection H as <-. rewrite consumed_app. now exists a, (c ++ s3).
Qed.

Lemma search_part (p : pattern) (s g : str) :
  search p s = Some g -> part_of g s.
Proof.
  induction s as [|c s IH]; cbn [search].
  - destruct (match_group p []) eqn:E; [|discriminate].
    intros H. injection H as <-. now apply match_group_part in E.
  - destruct (match_group p (c :: s)) eqn:E.
    + intros H. injection H as <-. now apply match_group_part in E.
    + intros H. apply part_of_tail. now apply IH.
Qed.

Lemma findall_from_part (r : regex) :
  forall fuel s m, In m (findall_from fuel r s) -> part_of m s.
Proof.
  induction fuel as [|fuel IH]; intros s m; cbn [findall_from]; [intros []|].
  assert (Hadv : In m match s with
                      | [] => []
                      | _ :: s' => findall_from fuel r s'
                      end -> part_of m s).
  { destruct s as [|c s]; [intros [] |].
    intros H. apply part_of_tail. now apply IH. }
  destruct (match_whole r s) as [[m' rest]|] eqn:E; [|exact Hadv].
  apply match_whole_sound in E as [_ ->].
  intros [<- | H].
  - now exists [], rest.
  - destruct (length rest <? length (m' ++ rest)); [|now apply Hadv].
    apply IH in H as (a & b & ->). exists (m' ++ a), b.
    now rewrite <- app_assoc.
Qed.

Lemma slice_part (s : str) (i j : nat) : part_of (slice s i j) s.
Proof.
  unfold slice. exists (firstn i s), (skipn (j - i) (skipn i s)).
  now rewrite firstn_skipn, firstn_skipn.
Qed.

Lemma extract_json_part (text r : str) :
  extract_json_from_text text = Some r -> part_of r text.
Proof.
  intros H. pose proof (extract_json_braced _ H) as Hb.
  unfold extract_json_from_text in H.
  destruct (method1 text) as [r1|] eqn:E1.
  - injection H as <-. unfold method1 in E1.
    destruct (search json_block_pattern text) as [g|] eqn:Es; [|discriminate].
    injection E1 as E1. pose proof (search_sound _ _ Es) as Hg.
    apply brace_group_braced in Hg. rewrite strip_braced in E1 by exact Hg.
    subst g. now apply search_part in Es.
  - destruct (method2 text) as [r2|] eqn:E2.
    + injection H as <-. unfold method2 in E2.
      destruct (findall json_pattern text) as [|m ms] eqn:Ef; [discriminate|].
      injection E2 as E2.
      assert (Hin : In (max_by_len m ms) (findall json_pattern text))
        by (rewrite Ef; apply max_by_len_in).
      pose proof (findall_from_sound _ _ _ _ Hin) as Hm.
      apply json_pattern_braced in Hm. rewrite strip_braced in E2 by exact Hm.
      rewrite <- E2. now apply findall_from_part in Hin.
    + unfold method3 in H.
      destruct (find lbrace text) as [i|] eqn:Ei; [|discriminate].
      destruct (rfind rbrace text) as [j|] eqn:Ej; [|discriminate].
      destruct (i <? j) eqn:Elt; [|discriminate].
      injection H as H. apply Nat.ltb_lt in Elt.
      rewrite strip_braced in H by (now apply slice_braced).
      rewrite <- H. apply slice_part.
Qed.

(** X13.  The response parser invents nothing: what it returns is a contiguous
    part of the text it was given, at least two characters long; and a text
    without an opening brace, or without a closing one, the empty text for
    one, gives none. *)
Theorem extract_json_is_part_of_text :
  (forall text r : str,
      extract_json_from_text text = Some r ->
      (exists a b, text = a ++ r ++ b)
      /\ 2 <= length r <= length text)
  /\ (forall text : str,
        forallb (fun c => negb (c =? lbrace)%N) text = true
        \/ forallb (fun c => negb (c =? rbrace)%N) text = true ->
        extract_json_from_text text = None)
  /\ extract_json_from_text [] = None.
Proof.
  split; [|split].
  - intros text r H. pose proof (extract_json_part _ H) as (a & b & ->).
    split; [now exists a, b|].
    apply extract_json_braced in H as [m ->].
    rewrite !length_app. cbn [length]. rewrite length_app. cbn [length]. lia.
  - intros text Hno.
    destruct (extract_json_from_text text) as [r|] eqn:E; [|reflexivity].
    exfalso. pose proof (extract_json_part _ E) as (a & b & ->).
    apply extract_json_braced in E as [m ->].
    destruct Hno as [Hno | Hno].
    + rewrite forallb_app in Hno. apply andb_true_iff in Hno as [_ Hno].
      cbn [app forallb] in Hno. rewrite N.eqb_refl in Hno. discriminate Hno.
    + rewrite forallb_app in Hno. apply andb_true_iff in Hno as [_ Hno].
      change (lbrace :: m ++ [rbrace]) with ((lbrace :: m) ++ [rbrace]) in Hno.
      rewrite <- app_assoc, forallb_app in Hno.
      apply andb_true_iff in Hno as [_ Hno].
      cbn [app forallb] in Hno. rewrite N.eqb_refl in Hno. discriminate Hno.
  - reflexivity.
Qed.

Lemma extract_json_is_part_of_text_witness :
  extract_json_from_text (lit "no object in this answer") = None
  /\ exists a b, lit "see {a {b} c} and {d}" = a ++ lit "{a {b} c}" ++ b.
Proof.
  destruct extract_json_is_part_of_text as (Hpart & Hnone & _). split.
  - apply Hnone. left. vm_compute. reflexivity.
  - apply (Hpart (lit "see {a {b} c} and {d}") (lit "{a {b} c}")).
    vm_compute. reflexivity.
Defined.

(* ------------------------------------------------------------------ *)
(** ** The answer that is a bare object *)

Section ExecRun.
Variable R : Type.

(** A greedy repetition of a character class in front of a character that
    is not of the class, where the rest of the pattern succeeds. *)
Lemma star_class_run (p : char -> bool) (k : str -> option R) (v : R)
    (rest : str) :
  match rest with c :: _ => p c = false | [] => True end ->
  k rest = Some v ->
  forall (run : str) (fuel : nat),
    forallb p run = true -> length run <= fuel ->
    star_greedy (exec (Chr p)) fuel (run ++ rest) k = Some v.
Proof.
  intros Hrest Hk. induction run as [|c run IH]; intros fuel Hrun Hfuel.
  - cbn [app]. destruct fuel as [|fuel]; cbn [star_greedy]; [exact Hk|].
    destruct rest as [|c rest].
    + now rewrite exec_chr_nil.
    + now rewrite exec_chr, Hrest.
  - cbn [forallb] in Hrun. apply andb_true_iff in Hrun as [Hc Hrun].
    destruct fuel as [|fuel]; [simpl in Hfuel; lia|].
    cbn [app star_greedy]. rewrite exec_chr, Hc.
    consumed_something.
    rewrite (IH fuel Hrun); [reflexivity | simpl in Hfuel; lia].
Qed.

End ExecRun.

Lemma match_whole_flat_object (m rest : str) :
  forallb not_brace m = true ->
  match_whole json_pattern (lbrace :: m ++ rbrace :: rest)
  = Some (lbrace :: m ++ [rbrace], rest).
Proof.
  intros Hm. unfold match_whole.
  set (s := lbrace :: m ++ rbrace :: rest).
  set (k := fun r : str => Some (consumed s r, r)).
  assert (Hk : k rest = Some (lbrace :: m ++ [rbrace], rest)).
  { unfold k, s. f_equal. f_equal.
    change (lbrace :: m ++ rbrace :: rest)
      with ((lbrace :: m) ++ [rbrace] ++ rest).
    rewrite app_assoc. apply consumed_app. }
  unfold json_pattern.
  change (exec (Cat (Chr (N.eqb lbrace)) ?r) s k)
    with (exec (Chr (N.eqb lbrace)) s (fun s' => exec r s' k)).
  unfold s at 1. rewrite exec_chr, N.eqb_refl.
  change (exec (Cat (Star (Chr not_brace)) ?r) ?t k)
    with (star_greedy (exec (Chr not_brace)) (length t) t
            (fun s' => exec r s' k)).
  apply star_class_run; [reflexivity | | exact Hm | rewrite length_app; lia].
  change (exec (Cat (Star ?g) (Chr (N.eqb rbrace))) (rbrace :: rest) k)
    with (star_greedy (exec g) (length (rbrace :: rest)) (rbrace :: rest)
            (fun s' => exec (Chr (N.eqb rbrace)) s' k)).
  cbn [length star_greedy]. cbn [exec].
  change (rbrace =? rbrace)%N with true. cbv beta iota.
  change (lbrace =? rbrace)%N with false. cbv beta iota. exact Hk.
Qed.

Lemma match_whole_needs_brace (s : str) :
  match s with c :: _ => (c =? lbrace)%N = false | [] => True end ->
  match_whole json_pattern s = None.
Proof.
  destruct s as [|c s]; intros H; [reflexivity|].
  unfold match_whole, json_pattern. cbn [exec].
  rewrite N.eqb_sym in H. now rewrite H.
Qed.

Lemma findall_without_brace (fuel : nat) :
  forall s,
    forallb (fun c => negb (c =? lbrace)%N) s = true ->
    findall_from fuel json_pattern s = [].
Proof.
  induction fuel as [|fuel IH]; intros s Hs; cbn [findall_from];
    [reflexivity|].
  destruct s as [|c s].
  - now rewrite match_whole_needs_brace.
  - cbn [forallb] in Hs. apply andb_true_iff in Hs as [Hc Hs].
    apply negb_true_iff in Hc.
    rewrite match_whole_needs_brace by exact Hc. now apply IH.
Qed.

Lemma findall_skips (pre : str) :
  forallb (fun c => negb (c =? lbrace)%N) pre = true ->
  forall fuel s,
    findall_from (length pre + fuel) json_pattern (pre ++ s)
    = findall_from fuel json_pattern s.
Proof.
  induction pre as [|c pre IH]; intros Hpre fuel s; [reflexivity|].
  cbn [forallb] in Hpre. apply andb_true_iff in Hpre as [Hc Hpre].
  apply negb_true_iff in Hc.
  cbn [length Nat.add app findall_from].
  rewrite match_whole_needs_brace by exact Hc. now apply IH.
Qed.

Lemma space_not_brace (c : char) :
  isspace c = true -> (c =? lbrace)%N = false.
Proof.
  intros H. destruct (c =? lbrace)%N eqn:E; [|reflexivity].
  apply N.eqb_eq in E. subst c. discriminate H.
Qed.

Lemma space_not_backtick (c : char) :
  isspace c = true -> (c =? backtick)%N = false.
Proof.
  intros H. destruct (c =? backtick)%N eqn:E; [|reflexivity].
  apply N.eqb_eq in E. subst c. discriminate H.
Qed.

Lemma forallb_weaken (p q : char -> bool) (s : str) :
  (forall c, p c = true -> q c = true) ->
  forallb p s = true -> forallb q s = true.
Proof.
  intros H. rewrite !forallb_forall. intros Hp c Hc. apply H. now apply Hp.
Qed.

Lemma search_without_backtick (s : str) :
  forallb (fun c => negb (c =? backtick)%N) s = true ->
  search json_block_pattern s = None.
Proof.
  induction s as [|c s IH]; intros Hs.
  - cbn [search]. now rewrite match_group_needs_fence.
  - cbn [forallb] in Hs. apply andb_true_iff in Hs as [Hc Hs].
    apply negb_true_iff in Hc. cbn [search].
    rewrite match_group_needs_fence.
    + now apply IH.
    + unfold fence_text. cbn [startswith]. rewrite N.eqb_sym in Hc.
      now rewrite Hc.
Qed.

(** A flat object between white space, with no backtick in it. *)
Lemma bare_text_no_backtick (ws1 m ws2 : str) :
  forallb isspace ws1 = true -> forallb isspace ws2 = true ->
  forallb (fun c => negb (c =? backtick)%N) m = true ->
  forallb (fun c => negb (c =? backtick)%N)
    (ws1 ++ (lbrace :: m ++ [rbrace]) ++ ws2) = true.
Proof.
  intros Hw1 Hw2 Hbt.
  assert (Hsp : forall ws, forallb isspace ws = true ->
                  forallb (fun c => negb (c =? backtick)%N) ws = true).
  { intros ws. apply forallb_weaken. intros c Hc.
    now rewrite space_not_backtick. }
  rewrite forallb_app. apply andb_true_iff. split; [now apply Hsp|].
  rewrite forallb_app. apply andb_true_iff. split; [|now apply Hsp].
  cbn [forallb]. apply andb_true_iff. split; [reflexivity|].
  rewrite forallb_app. apply andb_true_iff. split; [exact Hbt | reflexivity].
Qed.

Lemma method1_bare (ws1 m ws2 : str) :
  forallb isspace ws1 = true -> forallb isspace ws2 = true ->
  forallb (fun c => negb (c =? backtick)%N) m = true ->
  method1 (ws1 ++ (lbrace :: m ++ [rbrace]) ++ ws2) = None.
Proof.
  intros Hw1 Hw2 Hbt. unfold method1.
  now rewrite search_without_backtick by (now apply bare_text_no_backtick).
Qed.

Lemma findall_bare (ws1 m ws2 : str) :
  forallb isspace ws1 = true -> forallb isspace ws2 = true ->
  forallb not_brace m = true ->
  findall json_pattern (ws1 ++ (lbrace :: m ++ [rbrace]) ++ ws2)
  = [lbrace :: m ++ [rbrace]].
Proof.
  intros Hw1 Hw2 Hm.
  assert (Hsp : forall ws, forallb isspace ws = true ->
                  forallb (fun c => negb (c =? lbrace)%N) ws = true).
  { intros ws. apply forallb_weaken. intros c Hc.
    now rewrite space_not_brace. }
  unfold findall. rewrite length_app.
  replace (S (length ws1 + length ((lbrace :: m ++ [rbrace]) ++ ws2)))
    with (length ws1 + S (length ((lbrace :: m ++ [rbrace]) ++ ws2)))
    by lia.
  rewrite (findall_skips ws1 (Hsp ws1 Hw1)). cbn [findall_from].
  assert (Es : (lbrace :: m ++ [rbrace]) ++ ws2 = lbrace :: m ++ rbrace :: ws2)
    by (cbn [app]; now rewrite <- app_assoc).
  rewrite Es, (match_whole_flat_object m ws2 Hm).
  f_equal.
  match goal with
  | |- context [?a <? ?b] => destruct (Nat.ltb_spec a b) as [_ | Hge]
  end.
  - apply findall_without_brace. now apply Hsp.
  - exfalso. cbn [length] in Hge. rewrite length_app in Hge.
    cbn [length] in Hge. lia.
Qed.

Lemma method2_bare (ws1 m ws2 : str) :
  forallb isspace ws1 = true -> forallb isspace ws2 = true ->
  forallb not_brace m = true ->
  method2 (ws1 ++ (lbrace :: m ++ [rbrace]) ++ ws2)
  = Some (lbrace :: m ++ [rbrace]).
Proof.
  intros Hw1 Hw2 Hm. unfold method2.
  rewrite (findall_bare ws1 m ws2 Hw1 Hw2 Hm). cbn [max_by_len]. f_equal.
  apply strip_braced. now exists m.
Qed.

Lemma extract_json_bare (ws1 m ws2 : str) :
  forallb isspace ws1 = true -> forallb isspace ws2 = true ->
  forallb not_brace m = true ->
  forallb (fun c => negb (c =? backtick)%N) m = true ->
  extract_json_from_text (ws1 ++ (lbrace :: m ++ [rbrace]) ++ ws2)
  = Some (lbrace :: m ++ [rbrace]).
Proof.
  intros Hw1 Hw2 Hm Hbt. unfold extract_json_from_text.
  now rewrite method1_bare, method2_bare.
Qed.

Lemma lstrip_spaces (ws s : str) :
  forallb isspace ws = true -> lstrip (ws ++ s) = lstrip s.
Proof.
  induction ws as [|w ws IH]; intros H; [reflexivity|].
  cbn [forallb] in H. apply andb_true_iff in H as [Hw H].
  cbn [app lstrip]. rewrite Hw. now apply IH.
Qed.

Lemma strip_padded (ws1 body ws2 : str) :
  braced body ->
  forallb isspace ws1 = true -> forallb isspace ws2 = true ->
  strip (ws1 ++ body ++ ws2) = body.
Proof.
  intros Hb Hw1 Hw2. pose proof (strip_braced Hb) as Hs.
  destruct Hb as [m ->]. unfold strip, rstrip in *.
  rewrite lstrip_spaces by exact Hw1.
  rewrite lstrip_nonspace in Hs by reflexivity.
  assert (E : lstrip ((lbrace :: m ++ [rbrace]) ++ ws2)
              = (lbrace :: m ++ [rbrace]) ++ ws2)
    by (cbn [app]; now apply lstrip_nonspace).
  rewrite E, rev_app_distr, lstrip_spaces; [exact Hs|].
  rewrite forallb_forall in *. intros c Hc. apply Hw2.
  now apply in_rev.
Qed.

(** X14.  When the text is just an object without nested braces and without
    backticks, possibly between white space, the response parser returns
    that object, through its second method. *)
Theorem bare_object_is_returned :
  forall ws1 inner ws2 : str,
    forallb isspace ws1 = true -> forallb isspace ws2 = true ->
    forallb not_brace inner = true ->
    forallb (fun c => negb (c =? backtick)%N) inner = true ->
    extract_json_from_text (ws1 ++ (lbrace :: inner ++ [rbrace]) ++ ws2)
    = Some (lbrace :: inner ++ [rbrace])
    /\ method1 (ws1 ++ (lbrace :: inner ++ [rbrace]) ++ ws2) = None
    /\ method2 (ws1 ++ (lbrace :: inner ++ [rbrace]) ++ ws2)
       = Some (lbrace :: inner ++ [rbrace]).
Proof.
  intros ws1 inner ws2 Hw1 Hw2 Hm Hbt.
  split; [now apply extract_json_bare|].
  split; [now apply method1_bare | now apply method2_bare].
Qed.

Lemma bare_object_is_returned_witness :
  extract_json_from_text ([10%N] ++ untyped_answer ++ [32%N; 10%N])
  = Some untyped_answer.
Proof.
  assert (Ho : exists inner,
             untyped_answer = lbrace :: inner ++ [rbrace]
             /\ forallb not_brace inner = true
             /\ forallb (fun c => negb (c =? backtick)%N) inner = true).
  { exists (removelast (tl untyped_answer)).
    repeat split; vm_compute; reflexivity. }
  destruct Ho as (inner & -> & Hm & Hbt).
  apply (proj1 (bare_object_is_returned [10%N] inner [32%N; 10%N]
                  eq_refl eq_refl Hm Hbt)).
Defined.

Section BareAnswer.
Context {RT : Runtime} {LLM : Completion}.

(** X15.  When the model obeys the prompt and answers with just an object (no
    nested braces, no backticks, white space around it allowed), the
    extractor returns what [json.loads] makes of exactly that object; and
    when that decodes, the retry controller returns the decoded value from
    its first attempt. *)
Theorem extractor_decodes_bare_answer :
  forall (post : str) (st : state) (ws1 inner ws2 : str),
    forallb isspace ws1 = true -> forallb isspace ws2 = true ->
    forallb not_brace inner = true ->
    forallb (fun c => negb (c =? backtick)%N) inner = true ->
    fst (chain_invoke (prompt_of post) (world st))
    = Ok (ws1 ++ (lbrace :: inner ++ [rbrace]) ++ ws2) ->
    fst (extract_metadata post st) = json_loads (lbrace :: inner ++ [rbrace])
    /\ forall md max_retries,
         json_loads (lbrace :: inner ++ [rbrace]) = Ok md ->
         0 < max_retries ->
         extract_metadata_with_retry post max_retries st
         = (Ok md, snd (extract_metadata post st)).
Proof.
  intros post st ws1 inner ws2 Hw1 Hw2 Hm Hbt Hans.
  assert (E : fst (extract_metadata post st)
              = json_loads (lbrace :: inner ++ [rbrace])).
  { rewrite extract_metadata_outcome, Hans.
    rewrite strip_padded; [| now exists inner | exact Hw1 | exact Hw2].
    pose proof (extract_json_bare [] inner [] eq_refl eq_refl Hm Hbt) as Hx.
    cbn [app] in Hx. rewrite app_nil_r in Hx. now rewrite Hx. }
  split; [exact E|].
  intros md max_retries Hmd Hpos.
  unfold extract_metadata_with_retry, retry_controller.
  destruct max_retries as [|n]; [lia|]. cbn [retry_loop].
  destruct (extract_metadata post st) as [r st1]. cbn [fst snd] in *.
  rewrite E, Hmd. reflexivity.
Qed.

End BareAnswer.

Lemma extractor_decodes_bare_answer_witness :
  fst (@extract_metadata reference_runtime scripted (lit "hello")
         (run_on [Ok ([10%N] ++ untyped_answer ++ [32%N; 10%N])]))
  = @json_loads reference_runtime untyped_answer.
Proof.
  assert (Ho : exists inner,
             untyped_answer = lbrace :: inner ++ [rbrace]
             /\ forallb not_brace inner = true
             /\ forallb (fun c => negb (c =? backtick)%N) inner = true).
  { exists (removelast (tl untyped_answer)).
    repeat split; vm_compute; reflexivity. }
  destruct Ho as (inner & -> & Hm & Hbt).
  apply (proj1 (@extractor_decodes_bare_answer reference_runtime scripted
                  (lit "hello")
                  (run_on [Ok ([10%N] ++ (lbrace :: inner ++ [rbrace])
                                     ++ [32%N; 10%N])])
                  [10%N] inner [32%N; 10%N] eq_refl eq_refl Hm Hbt eq_refl)).
Defined.

Lemma clean_data_recursively_removes_surrogates_witness :
  clean_data_recursively (JObj [([116; 55357]%N, JStr [55357; 33]%N)])
  = Ok (JObj [([116; 65533]%N, JStr [65533; 33]%N)])
  /\ (exists bytes, encode_utf8_strict [116; 65533]%N = Ok bytes)
  /\ surrogate_free (JStr [65533; 33]%N) = true.
Proof.
  destruct (clean_data_recursively_removes_surrogates
              (JObj [([116; 55357]%N, JStr [55357; 33]%N)]))
    as (r & Hr & _ & _ & Hd & _).
  assert (E : clean_data_recursively
                (JObj [([116; 55357]%N, JStr [55357; 33]%N)])
              = Ok (JObj [([116; 65533]%N, JStr [65533; 33]%N)]))
    by reflexivity.
  split; [exact E|].
  rewrite E in Hr. injection Hr as Hr.
  apply (Hd [([116; 65533]%N, JStr [65533; 33]%N)] (eq_sym Hr)
            [116; 65533]%N (JStr [65533; 33]%N)).
  now left.
Defined.
